(** * CodeCast: segmented narration playback, PCM decoding and video export

    A shallow embedding of [src/services/geminiService.ts] (base64 / PCM
    decoding, audio segment generation) and of the playback and export
    logic of [src/App.tsx].

    Conventions of the model.
    - A JavaScript string is the list of its UTF-16 code units ([jsstr]).
    - A thrown exception (or a rejected promise of an async function) is
      [Throw e] in the [result] type.
    - The audio context is created with [sampleRate: 24000], and every
      [AudioBuffer] of the program is created at 24000 Hz.  Time
      ([ctx.currentTime], offsets, durations) is therefore counted in sample
      frames of 1/24000 s, as an integer: a duration of [d] frames is
      [d / 24000] seconds, exactly. *)

From Stdlib Require Import ZArith QArith String Ascii List Bool Lia Permutation.
Import ListNotations.

Open Scope Z_scope.

(* ------------------------------------------------------------------ *)
(** ** Results and exceptions *)

Inductive exn :=
| InvalidCharacterError      (* DOMException raised by [atob] *)
| RangeError                 (* raised by the [Int16Array] constructor *)
| NotSupportedError          (* DOMException raised by [createBuffer] *)
| GenError (msg : string).   (* [new Error(msg)] of the content generator *)

Inductive result (A : Type) : Type :=
| Ok (a : A)
| Throw (e : exn).
Arguments Ok {A} a.
Arguments Throw {A} e.

Definition bind {A B : Type} (r : result A) (k : A -> result B) : result B :=
  match r with
  | Ok a => k a
  | Throw e => Throw e
  end.

Notation "x <- r ;; k" := (bind r (fun x => k))
  (at level 61, r at next level, right associativity).

(** A JavaScript string: its UTF-16 code units. *)
Definition jsstr := list Z.

Fixpoint of_string (s : string) : jsstr :=
  match s with
  | EmptyString => []
  | String c r => Z.of_nat (nat_of_ascii c) :: of_string r
  end.

(* ------------------------------------------------------------------ *)
(** ** [atob]: the forgiving-base64 decode of the HTML standard *)

Definition is_ascii_whitespace (c : Z) : bool :=
  (c =? 9) || (c =? 10) || (c =? 12) || (c =? 13) || (c =? 32).

(** The 6-bit value of a base64 alphabet character. *)
Definition b64_index (c : Z) : option Z :=
  if (65 <=? c) && (c <=? 90) then Some (c - 65)          (* A-Z *)
  else if (97 <=? c) && (c <=? 122) then Some (c - 71)    (* a-z *)
  else if (48 <=? c) && (c <=? 57) then Some (c + 4)      (* 0-9 *)
  else if c =? 43 then Some 62                            (* + *)
  else if c =? 47 then Some 63                            (* / *)
  else None.

(** When the length is a multiple of 4, one or two trailing [=] are removed. *)
Definition drop_padding (s : jsstr) : jsstr :=
  if Nat.eqb (Nat.modulo (length s) 4) 0 then
    match rev s with
    | a :: r =>
        if a =? 61 then
          match r with
          | b :: r' => if b =? 61 then rev r' else rev r
          | [] => rev r
          end
        else s
    | [] => s
    end
  else s.

Fixpoint b64_indices (s : jsstr) : option (list Z) :=
  match s with
  | [] => Some []
  | c :: r =>
      match b64_index c, b64_indices r with
      | Some v, Some vs => Some (v :: vs)
      | _, _ => None
      end
  end.

(** Four 6-bit values give three bytes; a trailing group of three (two)
    values gives two bytes (one byte), the leftover bits being dropped. *)
Fixpoint b64_groups (vs : list Z) : list Z :=
  match vs with
  | a :: b :: c :: d :: rest =>
      let n := Z.lor (Z.shiftl a 18) (Z.lor (Z.shiftl b 12) (Z.lor (Z.shiftl c 6) d)) in
      Z.shiftr n 16 :: Z.land (Z.shiftr n 8) 255 :: Z.land n 255 :: b64_groups rest
  | [a; b; c] =>
      let n := Z.lor (Z.shiftl a 12) (Z.lor (Z.shiftl b 6) c) in
      [Z.shiftr n 10; Z.land (Z.shiftr n 2) 255]
  | [a; b] =>
      let n := Z.lor (Z.shiftl a 6) b in
      [Z.shiftr n 4]
  | _ => []
  end.

Definition atob (s : jsstr) : result jsstr :=
  let d := drop_padding (filter (fun c => negb (is_ascii_whitespace c)) s) in
  if Nat.eqb (Nat.modulo (length d) 4) 1 then Throw InvalidCharacterError
  else match b64_indices d with
       | None => Throw InvalidCharacterError
       | Some vs => Ok (b64_groups vs)
       end.

(* ------------------------------------------------------------------ *)
(** ** geminiService.ts: [decode] and [createAudioBufferFromPCM] *)

(** [decode]: [atob], then [bytes[i] = binaryString.charCodeAt(i)] stored in
    a [Uint8Array] (which keeps the value modulo 256). *)
Definition decode (base64 : jsstr) : result (list Z) :=
  binaryString <- atob base64 ;;
  Ok (map (fun c => c mod 256) binaryString).

(** One element of an [Int16Array] viewing two bytes of the buffer, in the
    byte order of the platform, little-endian. *)
Definition int16_of (lo hi : Z) : Z :=
  let v := lo + 256 * hi in
  if v <? 32768 then v else v - 65536.

Fixpoint le16 (bytes : list Z) : list Z :=
  match bytes with
  | lo :: hi :: r => int16_of lo hi :: le16 r
  | _ => []
  end.

(** [new Int16Array(bytes.buffer)]: the buffer of a fresh [Uint8Array(len)]
    has byte length [len]; a byte length that is not a multiple of 2 makes
    the constructor throw a [RangeError]. *)
Definition Int16Array_of_buffer (bytes : list Z) : result (list Z) :=
  if Nat.even (length bytes) then Ok (le16 bytes) else Throw RangeError.

(** An [AudioBuffer]: [length] frames (here [bufferLength]); the program
    only creates mono buffers, so one channel is kept, as the function
    giving the sample at each frame [0 <= i < length]. *)
Record AudioBuffer := mkAudioBuffer {
  numberOfChannels : nat;
  sampleRate : Z;
  bufferLength : Z;
  channelData : nat -> Q
}.

(** [ctx.createBuffer(numberOfChannels, length, sampleRate)]: Web Audio
    throws [NotSupportedError] when an argument is outside its nominal range
    (no channel, a length below 1, a rate outside [3000, 768000]); the new
    buffer is silent. *)
Definition createBuffer (numChannels : nat) (len : Z) (rate : Z) : result AudioBuffer :=
  if Nat.eqb numChannels 0 || (len <=? 0) || negb ((3000 <=? rate) && (rate <=? 768000))
  then Throw NotSupportedError
  else Ok (mkAudioBuffer numChannels rate len (fun _ => 0%Q)).

(** [createAudioBufferFromPCM(base64Data, ctx, sampleRate = 24000)].  The
    loop writes [dataInt16[i] / 32768.0] to [channelData[i]] for every
    frame; this quotient is exact in a [Float32Array] (a 16-bit numerator
    over a power of two), so it is kept as the rational [s # 32768]. *)
Definition createAudioBufferFromPCM (base64Data : jsstr) (rate : Z) : result AudioBuffer :=
  bytes <- decode base64Data ;;
  dataInt16 <- Int16Array_of_buffer bytes ;;
  let numChannels := 1%nat in
  let frameCount := Z.of_nat (length dataInt16) in
  buffer <- createBuffer numChannels frameCount rate ;;
  Ok (mkAudioBuffer (numberOfChannels buffer) (sampleRate buffer) (bufferLength buffer)
        (fun i => nth i (map (fun s => Qmake s 32768) dataInt16) 0%Q)).

(** The samples of a buffer, frame by frame. *)
Definition samples (b : AudioBuffer) : list Q :=
  map (channelData b) (seq 0 (Z.to_nat (bufferLength b))).

Example atob_hello : atob (of_string "aGk=") = Ok [104; 105].
Proof. reflexivity. Qed.

Example pcm_two_samples :
  match createAudioBufferFromPCM (of_string "AID/fw==") 24000 with
  | Ok b => samples b
  | Throw _ => []
  end = [Qmake (-32768) 32768; Qmake 32767 32768].
Proof. reflexivity. Qed.

(* ------------------------------------------------------------------ *)
(** ** The tutorial document and [generateAudioSegments] *)

Record Step := mkStep { lineCode : string; explanation : string }.

Record TutorialData := mkTutorial {
  title : string;
  language : string;
  code : string;
  overview : string;
  steps : list Step
}.

(** The texts narrated: [[data.overview, ...data.steps.map(step => step.explanation)]]. *)
Definition segment_texts (data : TutorialData) : list string :=
  overview data :: map explanation (steps data).

(** The narration synthesizer, an external call: [Some d] is the value of
    [response.candidates?.[0]?.content?.parts?.[0]?.inlineData?.data], [None]
    stands for a call that threw or an absent payload. *)
Definition Synthesizer := string -> option jsstr.

(** [generateSegment]: the payload, or [null] when the call failed; an empty
    payload is falsy, so [data || null] turns it into [null] too. *)
Definition generateSegment (tts : Synthesizer) (text : string) : option jsstr :=
  match tts text with
  | Some [] => None
  | Some d => Some d
  | None => None
  end.

(** [generateAudioSegments]: the calls are issued together and joined with
    [Promise.all]; [generateSegment] never rejects, so the join resolves with
    one entry per text, in order. *)
Definition generateAudioSegments (tts : Synthesizer) (data : TutorialData) : list (option jsstr) :=
  map (generateSegment tts) (segment_texts data).

(** The per-payload decoding in [handleSubmit]: a truthy payload is decoded
    with [createAudioBufferFromPCM]; [null] gives
    [ctx.createBuffer(1, 2 * 24000, 24000)], two seconds of silence. *)
Definition decode_payload (b64 : option jsstr) : result AudioBuffer :=
  match b64 with
  | Some s => createAudioBufferFromPCM s 24000
  | None => createBuffer 1 (2 * 24000) 24000
  end.

(** [Promise.all] over promises that settle at once, in order: the first
    rejection wins. *)
Fixpoint promise_all {A : Type} (rs : list (result A)) : result (list A) :=
  match rs with
  | [] => Ok []
  | r :: rs' => a <- r ;; l <- promise_all rs' ;; Ok (a :: l)
  end.

Definition decode_segments (payloads : list (option jsstr)) : result (list AudioBuffer) :=
  promise_all (map decode_payload payloads).

(** The two-second silent buffer of the fallback. *)
Definition silence : AudioBuffer := mkAudioBuffer 1 24000 (2 * 24000) (fun _ => 0%Q).

(** [buffer.duration], in frames of the 24000 Hz context (see the header). *)
Definition duration (b : AudioBuffer) : Z := bufferLength b.

(* ------------------------------------------------------------------ *)
(** ** The state of [App] *)

Inductive LoadingState := IDLE | GENERATING_CONTENT | GENERATING_AUDIO | READY | ERROR.

Inductive RecorderState := Inactive | Recording | RecPaused.

(** Where the suspended [handleExportVideo] call stands. *)
Inductive ExportPhase :=
| InLoop      (* inside the per-segment loop, about to process [ej_step] *)
| Rejected    (* an awaited call rejected: the async function has ended *)
| Stopping.   (* [recorder.stop()] called, [onstop] installed *)

Record ExportJob := mkJob {
  ej_step : nat;              (* the loop variable [i] *)
  ej_total : nat;             (* [totalSteps] *)
  ej_recorder : RecorderState;
  ej_chunks : list nat;       (* [chunks], each blob by its size *)
  ej_mime : string;           (* [mimeType] *)
  ej_phase : ExportPhase
}.

(** The refs and React state of the component, and the audio graph.
    Audio nodes are numbered: [sourceRef] holds the identity of the node in
    [audioSourceRef.current]; [sounding] lists the interactive nodes that are
    still producing sound, with the [index] their [onended] closure captured;
    [endedQueue] holds the [onended] callbacks queued by the audio thread and
    not yet run by the event loop. *)
Record App := mkApp {
  now : Z;                          (* ctx.currentTime *)
  buffers : list AudioBuffer;       (* audioBuffersRef.current *)
  sourceRef : option nat;           (* audioSourceRef.current *)
  startTime : Z;                    (* startTimeRef.current *)
  pauseOffset : Z;                  (* pauseOffsetRef.current *)
  activeIdx : nat;                  (* activeBufferIndexRef.current *)
  currentStep : nat;                (* currentStepIndex *)
  isPlaying : bool;                 (* isPlaying *)
  nextNode : nat;                   (* identity of the next node created *)
  sounding : list (nat * nat);
  endedQueue : list (nat * nat);
  loading : LoadingState;           (* loadingState *)
  error : option exn;               (* error *)
  tutorialData : option TutorialData;
  isExporting : bool;
  job : option ExportJob;           (* the running handleExportVideo call *)
  downloads : list (string * list nat)  (* artifacts handed to the browser *)
}.

(** The component as mounted. *)
Definition init : App :=
  mkApp 0 [] None 0 0 0 0 false 0 [] [] IDLE None None false None [].

Definition set_now (v : Z) (s : App) : App :=
  mkApp v (buffers s) (sourceRef s) (startTime s) (pauseOffset s) (activeIdx s) (currentStep s) (isPlaying s) (nextNode s) (sounding s) (endedQueue s) (loading s) (error s) (tutorialData s) (isExporting s) (job s) (downloads s).

Definition set_buffers (v : list AudioBuffer) (s : App) : App :=
  mkApp (now s) v (sourceRef s) (startTime s) (pauseOffset s) (activeIdx s) (currentStep s) (isPlaying s) (nextNode s) (sounding s) (endedQueue s) (loading s) (error s) (tutorialData s) (isExporting s) (job s) (downloads s).

Definition set_sourceRef (v : option nat) (s : App) : App :=
  mkApp (now s) (buffers s) v (startTime s) (pauseOffset s) (activeIdx s) (currentStep s) (isPlaying s) (nextNode s) (sounding s) (endedQueue s) (loading s) (error s) (tutorialData s) (isExporting s) (job s) (downloads s).

Definition set_startTime (v : Z) (s : App) : App :=
  mkApp (now s) (buffers s) (sourceRef s) v (pauseOffset s) (activeIdx s) (currentStep s) (isPlaying s) (nextNode s) (sounding s) (endedQueue s) (loading s) (error s) (tutorialData s) (isExporting s) (job s) (downloads s).

Definition set_pauseOffset (v : Z) (s : App) : App :=
  mkApp (now s) (buffers s) (sourceRef s) (startTime s) v (activeIdx s) (currentStep s) (isPlaying s) (nextNode s) (sounding s) (endedQueue s) (loading s) (error s) (tutorialData s) (isExporting s) (job s) (downloads s).

Definition set_activeIdx (v : nat) (s : App) : App :=
  mkApp (now s) (buffers s) (sourceRef s) (startTime s) (pauseOffset s) v (currentStep s) (isPlaying s) (nextNode s) (sounding s) (endedQueue s) (loading s) (error s) (tutorialData s) (isExporting s) (job s) (downloads s).

Definition set_currentStep (v : nat) (s : App) : App :=
  mkApp (now s) (buffers s) (sourceRef s) (startTime s) (pauseOffset s) (activeIdx s) v (isPlaying s) (nextNode s) (sounding s) (endedQueue s) (loading s) (error s) (tutorialData s) (isExporting s) (job s) (downloads s).

Definition set_isPlaying (v : bool) (s : App) : App :=
  mkApp (now s) (buffers s) (sourceRef s) (startTime s) (pauseOffset s) (activeIdx s) (currentStep s) v (nextNode s) (sounding s) (endedQueue s) (loading s) (error s) (tutorialData s) (isExporting s) (job s) (downloads s).

Definition set_nextNode (v : nat) (s : App) : App :=
  mkApp (now s) (buffers s) (sourceRef s) (startTime s) (pauseOffset s) (activeIdx s) (currentStep s) (isPlaying s) v (sounding s) (endedQueue s) (loading s) (error s) (tutorialData s) (isExporting s) (job s) (downloads s).

Definition set_sounding (v : list (nat * nat)) (s : App) : App :=
  mkApp (now s) (buffers s) (sourceRef s) (startTime s) (pauseOffset s) (activeIdx s) (currentStep s) (isPlaying s) (nextNode s) v (endedQueue s) (loading s) (error s) (tutorialData s) (isExporting s) (job s) (downloads s).

Definition set_endedQueue (v : list (nat * nat)) (s : App) : App :=
  mkApp (now s) (buffers s) (sourceRef s) (startTime s) (pauseOffset s) (activeIdx s) (currentStep s) (isPlaying s) (nextNode s) (sounding s) v (loading s) (error s) (tutorialData s) (isExporting s) (job s) (downloads s).

Definition set_loading (v : LoadingState) (s : App) : App :=
  mkApp (now s) (buffers s) (sourceRef s) (startTime s) (pauseOffset s) (activeIdx s) (currentStep s) (isPlaying s) (nextNode s) (sounding s) (endedQueue s) v (error s) (tutorialData s) (isExporting s) (job s) (downloads s).

Definition set_error (v : option exn) (s : App) : App :=
  mkApp (now s) (buffers s) (sourceRef s) (startTime s) (pauseOffset s) (activeIdx s) (currentStep s) (isPlaying s) (nextNode s) (sounding s) (endedQueue s) (loading s) v (tutorialData s) (isExporting s) (job s) (downloads s).

Definition set_tutorialData (v : option TutorialData) (s : App) : App :=
  mkApp (now s) (buffers s) (sourceRef s) (startTime s) (pauseOffset s) (activeIdx s) (currentStep s) (isPlaying s) (nextNode s) (sounding s) (endedQueue s) (loading s) (error s) v (isExporting s) (job s) (downloads s).

Definition set_isExporting (v : bool) (s : App) : App :=
  mkApp (now s) (buffers s) (sourceRef s) (startTime s) (pauseOffset s) (activeIdx s) (currentStep s) (isPlaying s) (nextNode s) (sounding s) (endedQueue s) (loading s) (error s) (tutorialData s) v (job s) (downloads s).

Definition set_job (v : option ExportJob) (s : App) : App :=
  mkApp (now s) (buffers s) (sourceRef s) (startTime s) (pauseOffset s) (activeIdx s) (currentStep s) (isPlaying s) (nextNode s) (sounding s) (endedQueue s) (loading s) (error s) (tutorialData s) (isExporting s) v (downloads s).

Definition set_downloads (v : list (string * list nat)) (s : App) : App :=
  mkApp (now s) (buffers s) (sourceRef s) (startTime s) (pauseOffset s) (activeIdx s) (currentStep s) (isPlaying s) (nextNode s) (sounding s) (endedQueue s) (loading s) (error s) (tutorialData s) (isExporting s) (job s) v.

(* ------------------------------------------------------------------ *)
(** ** The audio nodes *)

(** Removes node [id] from a list of nodes, returning its captured index. *)
Fixpoint take_node (id : nat) (l : list (nat * nat)) : option (nat * list (nat * nat)) :=
  match l with
  | [] => None
  | (j, a) :: r =>
      if Nat.eqb j id then Some (a, r)
      else match take_node id r with
           | Some (a', r') => Some (a', (j, a) :: r')
           | None => None
           end
  end.

(** A node stops sounding, because [stop()] was called or its buffer ran
    out: its [ended] event is queued.  On a node that has already ended,
    [stop()] does nothing (the call sites wrap it in [try]). *)
Definition node_ends (id : nat) (s : App) : App :=
  match take_node id (sounding s) with
  | Some (a, r) => set_endedQueue (endedQueue s ++ [(id, a)]) (set_sounding r s)
  | None => s
  end.

(* ------------------------------------------------------------------ *)
(** ** Playback: [playSegment], [playAudio], [pauseAudio], [stopAudio] *)

(** [playSegment(index, offset)].  [ctx.resume()] has no effect on the
    state modelled.  [source.connect] and [source.start(0, offset)] make the
    new node sound; its [onended] handler is [on_ended] below. *)
Definition playSegment (index : nat) (offset : Z) (s : App) : App :=
  if Nat.leb (length (buffers s)) index then
    set_pauseOffset 0 (set_currentStep 0 (set_activeIdx 0 (set_isPlaying false s)))
  else
    let id := nextNode s in
    let s1 := set_sounding ((id, index) :: sounding s) (set_nextNode (S id) s) in
    let s2 := set_startTime (now s1 - offset) s1 in
    let s3 := set_sourceRef (Some id) s2 in
    set_isPlaying true (set_currentStep index (set_activeIdx index s3)).

(** The [onended] closure of the node [id] created by [playSegment(index, _)]. *)
Definition on_ended (id index : nat) (s : App) : App :=
  match sourceRef s with
  | Some r => if Nat.eqb r id then playSegment (S index) 0 s else s
  | None => s
  end.

Definition playAudio (s : App) : App :=
  playSegment (activeIdx s) (pauseOffset s) s.

(** [buffers[i]?.duration || 0]. *)
Definition duration_at (i : nat) (s : App) : Z :=
  match nth_error (buffers s) i with
  | Some b => duration b
  | None => 0
  end.

(** [pauseAudio].  The context exists whenever [audioSourceRef.current] is
    set (only [playSegment] sets it, after [getAudioContext()]). *)
Definition pauseAudio (s : App) : App :=
  match sourceRef s with
  | Some id =>
      let s1 := node_ends id s in
      let off := now s1 - startTime s1 in
      let s2 :=
        if duration_at (activeIdx s1) s1 <? off
        then set_activeIdx (S (activeIdx s1)) (set_pauseOffset 0 s1)
        else set_pauseOffset off s1 in
      set_isPlaying false (set_sourceRef None s2)
  | None => s
  end.

(** [stopAudio]: the ref is cleared before [src.stop()]; [disconnect()]
    does not detach [onended]. *)
Definition stopAudio (s : App) : App :=
  let s1 :=
    match sourceRef s with
    | Some id => node_ends id (set_sourceRef None s)
    | None => s
    end in
  set_pauseOffset 0 (set_currentStep 0 (set_activeIdx 0 (set_isPlaying false s1))).

Definition handleTogglePlay (s : App) : App :=
  if isPlaying s then pauseAudio s else playAudio s.

Definition handleReplay (s : App) : App := playAudio (stopAudio s).

(** [handleDeepDive]: without a document it returns at once; otherwise it
    pauses the playback (the explanation request that follows does not touch
    the playback state). *)
Definition handleDeepDive (s : App) : App :=
  match tutorialData s with
  | None => s
  | Some _ => pauseAudio s
  end.

(* ------------------------------------------------------------------ *)
(** ** [handleSubmit] *)

(** The synchronous part of [handleSubmit], up to the first [await] (the
    query is not blank). *)
Definition handleSubmit_start (s : App) : App :=
  let s1 := stopAudio s in
  let s2 := set_tutorialData None (set_error None (set_loading GENERATING_CONTENT s1)) in
  set_pauseOffset 0 (set_activeIdx 0 (set_currentStep 0 (set_buffers [] s2))).

(** Resumed when [generateTutorialContent(query)] settles; a rejection goes
    to the [catch] block. *)
Definition handleSubmit_content (r : result TutorialData) (s : App) : App :=
  match r with
  | Ok data => set_loading GENERATING_AUDIO (set_tutorialData (Some data) s)
  | Throw e => set_loading ERROR (set_error (Some e) s)
  end.

(** Resumed when [generateAudioSegments(data)] resolves with [payloads]:
    the buffers are decoded with [Promise.all]; a rejection goes to the
    [catch] block ([setError], [LoadingState.ERROR]); otherwise the buffers
    are installed, the state is [READY] and [playAudio()] starts. *)
Definition handleSubmit_audio (payloads : list (option jsstr)) (s : App) : App :=
  match decode_segments payloads with
  | Ok bs => playAudio (set_loading READY (set_buffers bs s))
  | Throw e => set_loading ERROR (set_error (Some e) s)
  end.

(* ------------------------------------------------------------------ *)
(** ** [handleExportVideo] *)

(** The container format, probed once per job. *)
Definition probe_mime (isTypeSupported : string -> bool) : string :=
  if isTypeSupported "video/mp4"%string then "video/mp4"%string
  else if isTypeSupported "video/webm;codecs=h264"%string then "video/webm;codecs=h264"%string
  else "video/webm"%string.

(** The synchronous part of [handleExportVideo] up to [recorder.start()];
    [container] tells whether [exportContainerRef.current] is set. *)
Definition handleExportVideo (container : bool) (isTypeSupported : string -> bool) (s : App) : App :=
  if negb container || isExporting s then s
  else match tutorialData s with
       | None => s
       | Some data =>
           let s1 := set_isExporting true (stopAudio s) in
           let totalSteps := S (length (steps data)) in
           set_job (Some (mkJob 0 totalSteps Recording [] (probe_mime isTypeSupported) InLoop)) s1
       end.

(** One turn of the export loop for [i = ej_step]: [setCurrentStepIndex(i)],
    [recorder.pause()], the 500 ms wait, then [html2canvas], which resolves
    ([snapshot_ok = true]) or rejects.  On a rejection the async function
    ends there.  Otherwise the snapshot is drawn, [recorder.resume()], the
    segment's audio (routed to the recording stream, without [onended]) or
    the 2 s fallback is waited for; after the last turn [recorder.stop()]
    is called and [onstop] installed. *)
Definition export_segment (snapshot_ok : bool) (s : App) : App :=
  match job s with
  | Some j =>
      match ej_phase j with
      | InLoop =>
          let i := ej_step j in
          let s1 := set_currentStep i s in
          if snapshot_ok then
            let j' :=
              if Nat.ltb (S i) (ej_total j)
              then mkJob (S i) (ej_total j) Recording (ej_chunks j) (ej_mime j) InLoop
              else mkJob (S i) (ej_total j) Inactive (ej_chunks j) (ej_mime j) Stopping in
            set_job (Some j') s1
          else
            set_job (Some (mkJob i (ej_total j) RecPaused (ej_chunks j) (ej_mime j) Rejected)) s1
      | _ => s
      end
  | None => s
  end.

(** [recorder.ondataavailable]: without a timeslice the recorder delivers
    its data when it is stopped. *)
Definition export_data (size : nat) (s : App) : App :=
  match job s with
  | Some j =>
      match ej_phase j with
      | Stopping =>
          if Nat.ltb 0 size
          then set_job (Some (mkJob (ej_step j) (ej_total j) (ej_recorder j)
                                    (ej_chunks j ++ [size]) (ej_mime j) Stopping)) s
          else s
      | _ => s
      end
  | None => s
  end.

(** [recorder.onstop]: the blob of the chunks is downloaded, [isExporting]
    is cleared and the selection reset to the beginning. *)
Definition export_onstop (s : App) : App :=
  match job s with
  | Some j =>
      match ej_phase j with
      | Stopping =>
          let s1 := set_downloads ((ej_mime j, ej_chunks j) :: downloads s) s in
          set_job None (set_activeIdx 0 (set_currentStep 0 (set_isExporting false s1)))
      | _ => s
      end
  | None => s
  end.

(* ------------------------------------------------------------------ *)
(** ** Events *)

(** User actions, completions of awaited calls, and the audio thread.  The
    submit form is disabled while content or audio is generated and while
    exporting. *)
Inductive Event :=
| ETogglePlay
| EReplay
| EDeepDive
| ESubmit
| EContent (r : result TutorialData)
| EAudio (payloads : list (option jsstr))
| ETick (d : nat)                 (* ctx.currentTime advances by d frames *)
| ENodeEnds (id : nat)            (* node id reaches the end of its buffer *)
| EDispatch                       (* the event loop runs the next onended *)
| EExport (container : bool) (isTypeSupported : string -> bool)
| EExportSegment (snapshot_ok : bool)
| EExportData (size : nat)
| EExportStop.

Definition dispatch (s : App) : App :=
  match endedQueue s with
  | [] => s
  | (id, index) :: q => on_ended id index (set_endedQueue q s)
  end.

Definition submit_enabled (s : App) : bool :=
  negb (isExporting s) &&
  match loading s with
  | GENERATING_CONTENT | GENERATING_AUDIO => false
  | _ => true
  end.

Definition apply (e : Event) (s : App) : App :=
  match e with
  | ETogglePlay => handleTogglePlay s
  | EReplay => handleReplay s
  | EDeepDive => handleDeepDive s
  | ESubmit => if submit_enabled s then handleSubmit_start s else s
  | EContent r =>
      match loading s with GENERATING_CONTENT => handleSubmit_content r s | _ => s end
  | EAudio p =>
      match loading s with GENERATING_AUDIO => handleSubmit_audio p s | _ => s end
  | ETick d => set_now (now s + Z.of_nat d) s
  | ENodeEnds id => node_ends id s
  | EDispatch => dispatch s
  | EExport c sup => handleExportVideo c sup s
  | EExportSegment ok => export_segment ok s
  | EExportData n => export_data n s
  | EExportStop => export_onstop s
  end.

Fixpoint run (es : list Event) (s : App) : App :=
  match es with
  | [] => s
  | e :: r => run r (apply e s)
  end.

(* ------------------------------------------------------------------ *)
(** ** The highlighted step and the deep-dive title *)

(** [currentHighlight]: [tutorialData && currentStepIndex > 0 &&
    currentStepIndex <= tutorialData.steps.length ?
    tutorialData.steps[currentStepIndex - 1].lineCode : null].  Reading
    [.lineCode] of a missing element would throw a [TypeError]; the outer
    [None] stands for that exception, [Some None] for [null]. *)
Definition currentHighlight (data : option TutorialData) (currentStepIndex : nat)
  : option (option string) :=
  match data with
  | Some d =>
      if Nat.ltb 0 currentStepIndex && Nat.leb currentStepIndex (length (steps d)) then
        match nth_error (steps d) (currentStepIndex - 1) with
        | Some st => Some (Some (lineCode st))
        | None => None
        end
      else Some None
  | None => Some None
  end.

(** The title of the deep-dive panel in [handleDeepDive]:
    [snippet.length > 30 ? snippet.substring(0, 30) + '...' : snippet]. *)
Definition deepDiveTitle (snippet : jsstr) : jsstr :=
  if Nat.ltb 30 (length snippet) then firstn 30 snippet ++ of_string "..." else snippet.

(* ------------------------------------------------------------------ *)
(** ** [CodeBlock]: the rendering of the listing *)

(** [p] occurs at the start of [s]. *)
Fixpoint starts_with (p s : jsstr) : bool :=
  match p, s with
  | [], _ => true
  | a :: p', b :: s' => (a =? b) && starts_with p' s'
  | _ :: _, [] => false
  end.

(** [s.includes(sub)]. *)
Fixpoint str_includes (s sub : jsstr) : bool :=
  starts_with sub s || match s with [] => false | _ :: t => str_includes t sub end.

(** [s.split(sep)] for a non-empty [sep] (both call sites pass one: the
    literal ['\n'], and [highlight] once it is known truthy).  Matches are
    taken from left to right without overlap; [acc] is the current piece,
    reversed.  Every round consumes a code unit, so [length s + 1] rounds
    suffice. *)
Fixpoint split_go (fuel : nat) (sep s acc : jsstr) : list jsstr :=
  match fuel with
  | O => [rev acc ++ s]
  | S f =>
      match s with
      | [] => [rev acc]
      | c :: t =>
          if starts_with sep s then rev acc :: split_go f sep (skipn (length sep) s) []
          else split_go f sep t (c :: acc)
      end
  end.

Definition str_split (sep s : jsstr) : list jsstr := split_go (S (length s)) sep s [].

(** A run of text in a row: plain, or inside the [highlight-active] span. *)
Inductive piece := Plain (t : jsstr) | Mark (t : jsstr).

(** [highlight && ...]: an absent ([null], [undefined]) or empty highlight
    is falsy. *)
Definition truthy_highlight (highlight : option jsstr) : option jsstr :=
  match highlight with
  | Some (c :: r) => Some (c :: r)
  | _ => None
  end.

(** [{content || '\n'}] when [content] is the line itself. *)
Definition content_or_newline (line : jsstr) : jsstr :=
  match line with [] => [10] | _ => line end.

(** The content of one row in [renderCode]: the parts of the line around
    the highlight, each but the last followed by a highlighted span. *)
Definition render_line (highlight : option jsstr) (line : jsstr) : list piece :=
  match truthy_highlight highlight with
  | Some h =>
      if str_includes line h then
        let parts := str_split h line in
        flat_map (fun '(i, part) =>
                    Plain part :: (if Nat.ltb i (length parts - 1) then [Mark h] else []))
                 (combine (seq 0 (length parts)) parts)
      else [Plain (content_or_newline line)]
  | None => [Plain (content_or_newline line)]
  end.

(** [renderCode]: one row per line of [code.split('\n')], with its line
    number [idx + 1]. *)
Definition renderCode (code : jsstr) (highlight : option jsstr) : list (nat * list piece) :=
  let lines := str_split [10] code in
  map (fun '(idx, line) => (S idx, render_line highlight line))
      (combine (seq 0 (length lines)) lines).

(* ================================================================== *)
(** * Properties *)

(* ------------------------------------------------------------------ *)
(** ** The PCM decoder *)

Section PCM.

Lemma le16_length (k : nat) (l : list Z) :
  length l = (2 * k)%nat -> length (le16 l) = k.
Proof.
  revert l; induction k as [|k IH]; intros l Hl.
  - destruct l; [reflexivity | discriminate].
  - destruct l as [|lo [|hi r]]; simpl in Hl; try lia.
    simpl. f_equal. apply IH. lia.
Qed.

Lemma le16_nth (l : list Z) (i : nat) lo hi :
  nth_error l (2 * i) = Some lo -> nth_error l (S (2 * i)) = Some hi ->
  nth_error (le16 l) i = Some (int16_of lo hi).
Proof.
  revert l; induction i as [|i IH]; intros l H1 H2.
  - destruct l as [|a [|b r]]; simpl in *; try discriminate.
    inversion H1; inversion H2; reflexivity.
  - replace (2 * S i)%nat with (S (S (2 * i))) in H1, H2 by lia.
    destruct l as [|a [|b r]]; simpl in H1, H2; try discriminate.
    simpl. apply IH; assumption.
Qed.

Lemma int16_of_range (lo hi : Z) :
  0 <= lo < 256 -> 0 <= hi < 256 -> -32768 <= int16_of lo hi <= 32767.
Proof.
  intros Hlo Hhi; unfold int16_of.
  destruct (Z.ltb_spec (lo + 256 * hi) 32768); lia.
Qed.

Lemma sample_in_unit (v : Z) :
  -32768 <= v <= 32767 -> (-1 <= Qmake v 32768 <= 1)%Q.
Proof.
  intros Hv; unfold Qle; simpl; lia.
Qed.

Lemma even_double (k : nat) : Nat.even (2 * k) = true.
Proof.
  induction k as [|k IH]; [reflexivity|].
  replace (2 * S k)%nat with (S (S (2 * k))) by lia. exact IH.
Qed.

Lemma nth_error_map_some {A B : Type} (f : A -> B) (l : list A) i b :
  nth_error (map f l) i = Some b -> exists a, nth_error l i = Some a /\ b = f a.
Proof.
  rewrite nth_error_map. destruct (nth_error l i); simpl; intros H; [|discriminate].
  inversion H; eauto.
Qed.

End PCM.

(** C5 (amended).  For every base64 string whose [atob] decoding has
    [2 * k] bytes with [k >= 1], [createAudioBufferFromPCM] returns a mono
    24000 Hz buffer of exactly [k] samples; sample [i] is the signed 16-bit
    little-endian value of bytes [2i] and [2i+1] divided by 32768, and lies
    in [-1, 1]. *)
Theorem createAudioBufferFromPCM_samples (b64 bin : jsstr) (k : nat) :
  atob b64 = Ok bin -> length bin = (2 * k)%nat -> (0 < k)%nat ->
  exists buf,
    createAudioBufferFromPCM b64 24000 = Ok buf /\
    numberOfChannels buf = 1%nat /\ sampleRate buf = 24000 /\
    bufferLength buf = Z.of_nat k /\ length (samples buf) = k /\
    forall i, (i < k)%nat ->
      exists lo hi,
        nth_error (map (fun c => c mod 256) bin) (2 * i) = Some lo /\
        nth_error (map (fun c => c mod 256) bin) (S (2 * i)) = Some hi /\
        nth_error (samples buf) i = Some (Qmake (int16_of lo hi) 32768) /\
        (-1 <= Qmake (int16_of lo hi) 32768 <= 1)%Q.
Proof.
  intros Hatob Hlen Hk.
  set (bytes := map (fun c => c mod 256) bin).
  assert (Hb : length bytes = (2 * k)%nat) by (unfold bytes; rewrite length_map; exact Hlen).
  assert (H16 : length (le16 bytes) = k) by (apply le16_length; exact Hb).
  unfold createAudioBufferFromPCM, decode. rewrite Hatob. simpl bind.
  fold bytes. unfold Int16Array_of_buffer. rewrite Hb, even_double. simpl bind.
  unfold createBuffer. rewrite H16.
  replace (Z.of_nat k <=? 0) with false by (symmetry; apply Z.leb_gt; lia).
  simpl.
  eexists; split; [reflexivity|].
  unfold samples; simpl. rewrite Nat2Z.id.
  split; [reflexivity|]. split; [reflexivity|]. split; [reflexivity|].
  split; [rewrite length_map, length_seq; reflexivity|].
  intros i Hi.
  destruct (nth_error bytes (2 * i)) as [lo|] eqn:E1;
    [| apply nth_error_None in E1; lia].
  destruct (nth_error bytes (S (2 * i))) as [hi|] eqn:E2;
    [| apply nth_error_None in E2; lia].
  exists lo, hi. split; [exact E1|]. split; [exact E2|].
  split.
  - rewrite nth_error_map, nth_error_seq.
    destruct (Nat.ltb_spec i k) as [_|]; [|lia]. simpl. f_equal.
    apply nth_error_nth. rewrite nth_error_map, (le16_nth bytes i lo hi E1 E2). reflexivity.
  - apply sample_in_unit, int16_of_range.
    + apply nth_error_map_some in E1. destruct E1 as [c [_ ->]]. apply Z.mod_pos_bound; lia.
    + apply nth_error_map_some in E2. destruct E2 as [c [_ ->]]. apply Z.mod_pos_bound; lia.
Qed.

Lemma createAudioBufferFromPCM_samples_witness :
  atob (of_string "AID/fw==") = Ok [0; 128; 255; 127] /\
  exists buf,
    createAudioBufferFromPCM (of_string "AID/fw==") 24000 = Ok buf /\
    numberOfChannels buf = 1%nat /\ sampleRate buf = 24000 /\
    bufferLength buf = Z.of_nat 2 /\ length (samples buf) = 2%nat /\
    forall i, (i < 2)%nat ->
      exists lo hi,
        nth_error (map (fun c => c mod 256) [0; 128; 255; 127]) (2 * i) = Some lo /\
        nth_error (map (fun c => c mod 256) [0; 128; 255; 127]) (S (2 * i)) = Some hi /\
        nth_error (samples buf) i = Some (Qmake (int16_of lo hi) 32768) /\
        (-1 <= Qmake (int16_of lo hi) 32768 <= 1)%Q.
Proof.
  split; [vm_compute; reflexivity|].
  apply (createAudioBufferFromPCM_samples (of_string "AID/fw==") [0; 128; 255; 127] 2);
    [vm_compute; reflexivity | reflexivity | lia].
Defined.

(** C5 (counterexample).  The empty string is valid base64 for zero bytes,
    yet decoding it produces no buffer: [createBuffer] refuses a length of
    0 and the call throws. *)
Lemma createAudioBufferFromPCM_empty_throws :
  atob [] = Ok [] /\ createAudioBufferFromPCM [] 24000 = Throw NotSupportedError.
Proof. split; reflexivity. Qed.

(** C10.  For every base64 payload whose decoding has an odd number of
    bytes, [createAudioBufferFromPCM] throws (the [Int16Array] view raises a
    [RangeError]) instead of returning a buffer. *)
Theorem createAudioBufferFromPCM_odd_throws (b64 bin : jsstr) (rate : Z) :
  atob b64 = Ok bin -> Nat.odd (length bin) = true ->
  createAudioBufferFromPCM b64 rate = Throw RangeError.
Proof.
  intros Hatob Hodd.
  unfold createAudioBufferFromPCM, decode. rewrite Hatob. simpl bind.
  unfold Int16Array_of_buffer. rewrite length_map.
  unfold Nat.odd in Hodd. destruct (Nat.even (length bin)); [discriminate|reflexivity].
Qed.

Lemma createAudioBufferFromPCM_odd_throws_witness :
  createAudioBufferFromPCM (of_string "AA==") 24000 = Throw RangeError.
Proof.
  apply (createAudioBufferFromPCM_odd_throws (of_string "AA==") [0] 24000);
    vm_compute; reflexivity.
Defined.

(* ------------------------------------------------------------------ *)
(** ** Segment generation *)

Section Segments.

Lemma promise_all_ok {A : Type} (rs : list (result A)) (l : list A) :
  promise_all rs = Ok l ->
  length l = length rs /\
  forall i r, nth_error rs i = Some r -> exists a, nth_error l i = Some a /\ r = Ok a.
Proof.
  revert l; induction rs as [|r rs IH]; intros l H; simpl in H.
  - inversion H; subst. split; [reflexivity|]. intros [|i] r' Hr; discriminate.
  - destruct r as [a|e]; simpl in H; [|discriminate].
    destruct (promise_all rs) as [l'|e] eqn:E; simpl in H; [|discriminate].
    inversion H; subst. destruct (IH l' eq_refl) as [Hlen Hnth].
    split; [simpl; lia|].
    intros [|i] r' Hr; simpl in Hr.
    + inversion Hr; subst. exists a; split; reflexivity.
    + apply Hnth; exact Hr.
Qed.

Lemma promise_all_throw {A : Type} (rs : list (result A)) (e : exn) :
  In (Throw e) rs -> exists e', promise_all rs = Throw e'.
Proof.
  induction rs as [|r rs IH]; intros Hin; [destruct Hin|].
  destruct Hin as [->|Hin].
  - exists e; reflexivity.
  - simpl. destruct r as [a|e0]; simpl; [|eauto].
    destruct (IH Hin) as [e' ->]. exists e'; reflexivity.
Qed.

Lemma generateSegment_null (tts : Synthesizer) (text : string) :
  generateSegment tts text = None <-> (tts text = None \/ tts text = Some []).
Proof.
  unfold generateSegment. destruct (tts text) as [[|c d]|]; split; intros H;
    try discriminate; auto.
  destruct H as [H|H]; discriminate.
Qed.

Lemma decode_payload_null : decode_payload None = Ok silence.
Proof. reflexivity. Qed.

Lemma silence_duration : duration silence = 2 * 24000.
Proof. reflexivity. Qed.

End Segments.

(** C4.  For every document with [n] steps and every outcome of the
    synthesizer, segment generation yields [n + 1] payloads: index 0 for the
    overview, index [i + 1] for the explanation of step [i]; a failed call
    or an empty payload gives [null].  When the buffers are decoded, there
    are exactly [n + 1] of them, buffer [i] comes from payload [i], and a
    [null] payload gives the silent buffer: one channel at 24000 Hz, two
    seconds long. *)
Theorem audio_segments_shape (tts : Synthesizer) (data : TutorialData) :
  let payloads := generateAudioSegments tts data in
  length payloads = S (length (steps data)) /\
  nth_error payloads 0 = Some (generateSegment tts (overview data)) /\
  (forall i st, nth_error (steps data) i = Some st ->
     nth_error payloads (S i) = Some (generateSegment tts (explanation st))) /\
  (forall text, generateSegment tts text = None <-> (tts text = None \/ tts text = Some [])) /\
  numberOfChannels silence = 1%nat /\ sampleRate silence = 24000 /\
  duration silence = 2 * 24000 /\
  forall bufs, decode_segments payloads = Ok bufs ->
    length bufs = S (length (steps data)) /\
    (forall i p, nth_error payloads i = Some p ->
       exists b, nth_error bufs i = Some b /\ decode_payload p = Ok b) /\
    (forall i, nth_error payloads i = Some None -> nth_error bufs i = Some silence).
Proof.
  intros payloads.
  assert (Hlen : length payloads = S (length (steps data)))
    by (unfold payloads, generateAudioSegments, segment_texts;
        rewrite length_map; simpl; rewrite length_map; reflexivity).
  split; [exact Hlen|]. split; [reflexivity|].
  split.
  { intros i st Hst. unfold payloads, generateAudioSegments, segment_texts.
    rewrite nth_error_map. simpl. rewrite nth_error_map, Hst. reflexivity. }
  split; [apply generateSegment_null|].
  split; [reflexivity|]. split; [reflexivity|]. split; [exact silence_duration|].
  intros bufs Hdec.
  unfold decode_segments in Hdec. apply promise_all_ok in Hdec.
  destruct Hdec as [Hl Hnth]. rewrite length_map in Hl.
  split; [lia|].
  assert (Hp : forall i p, nth_error payloads i = Some p ->
                exists b, nth_error bufs i = Some b /\ decode_payload p = Ok b).
  { intros i p Hp. destruct (Hnth i (decode_payload p)) as [b [Hb Hr]].
    - rewrite nth_error_map, Hp. reflexivity.
    - exists b; split; assumption. }
  split; [exact Hp|].
  intros i Hi. destruct (Hp i None Hi) as [b [Hb Hd]].
  rewrite decode_payload_null in Hd. inversion Hd; subst. exact Hb.
Qed.

Definition doc_one_step : TutorialData :=
  mkTutorial "Center a div" "CSS" "div { margin: auto; }" "Stop fighting CSS!"
    [mkStep "margin: auto;" "Auto margins share the free space."].

Lemma audio_segments_shape_witness :
  decode_segments (generateAudioSegments (fun _ => None) doc_one_step) = Ok [silence; silence] /\
  length [silence; silence] = S (length (steps doc_one_step)).
Proof.
  split; [vm_compute; reflexivity|].
  destruct (audio_segments_shape (fun _ => None) doc_one_step)
    as [_ [_ [_ [_ [_ [_ [_ H]]]]]]].
  apply (H [silence; silence]). vm_compute; reflexivity.
Defined.

(** C6 (counterexample).  A malformed payload ["!!!!"] makes decoding throw;
    the submission is not rescued with silence but fails as a whole: the
    loading state becomes [ERROR], the error is set and no buffer is kept. *)
Lemma malformed_payload_fails_submission :
  let s := run [ESubmit; EContent (Ok doc_one_step);
                EAudio [Some (of_string "!!!!"); None]] init in
  decode (of_string "!!!!") = Throw InvalidCharacterError /\
  loading s = ERROR /\ error s = Some InvalidCharacterError /\ buffers s = [].
Proof. vm_compute. repeat split. Qed.

(** C6 (amended).  A payload that is not valid base64 makes
    [createAudioBufferFromPCM] throw; the caller does not catch it per
    segment: [Promise.all] rejects, so the submission resumed with these
    payloads ends in [ERROR] with an error set, the buffers are not
    installed and playback does not start.  Only a [null] payload is
    replaced by silence. *)
Theorem malformed_payload_rejects_submission (s : App) (payloads : list (option jsstr)) (p : jsstr) :
  loading s = GENERATING_AUDIO -> In (Some p) payloads -> atob p = Throw InvalidCharacterError ->
  decode p = Throw InvalidCharacterError /\
  decode_payload None = Ok silence /\
  exists e,
    let s' := apply (EAudio payloads) s in
    loading s' = ERROR /\ error s' = Some e /\ buffers s' = buffers s /\
    sourceRef s' = sourceRef s /\ isPlaying s' = isPlaying s /\ activeIdx s' = activeIdx s.
Proof.
  intros Hl Hin Hatob.
  assert (Hd : decode p = Throw InvalidCharacterError) by (unfold decode; rewrite Hatob; reflexivity).
  split; [exact Hd|]. split; [exact decode_payload_null|].
  assert (Hth : In (Throw InvalidCharacterError) (map decode_payload payloads)).
  { apply (in_map decode_payload) in Hin. simpl in Hin.
    unfold createAudioBufferFromPCM in Hin. rewrite Hd in Hin. exact Hin. }
  destruct (promise_all_throw _ _ Hth) as [e He].
  exists e. cbv zeta. unfold apply. rewrite Hl.
  unfold handleSubmit_audio, decode_segments. rewrite He.
  repeat split; reflexivity.
Qed.

Lemma malformed_payload_rejects_submission_witness :
  let s := run [ESubmit; EContent (Ok doc_one_step)] init in
  loading s = GENERATING_AUDIO /\
  exists e,
    let s' := apply (EAudio [Some (of_string "!!!!"); None]) s in
    loading s' = ERROR /\ error s' = Some e /\ buffers s' = buffers s /\
    sourceRef s' = sourceRef s /\ isPlaying s' = isPlaying s /\ activeIdx s' = activeIdx s.
Proof.
  split; [vm_compute; reflexivity|].
  apply (malformed_payload_rejects_submission _ _ (of_string "!!!!"));
    [vm_compute; reflexivity | simpl; auto | vm_compute; reflexivity].
Defined.

(* ------------------------------------------------------------------ *)
(** ** Invariants of the playback engine *)

Section Nodes.

Lemma take_node_perm (id a : nat) (l r : list (nat * nat)) :
  take_node id l = Some (a, r) -> Permutation l ((id, a) :: r).
Proof.
  revert r; induction l as [|[j b] l IH]; intros r H; simpl in H; [discriminate|].
  destruct (Nat.eqb_spec j id) as [->|Hne].
  - inversion H; subst. reflexivity.
  - destruct (take_node id l) as [[a' r']|] eqn:E; [|discriminate].
    inversion H; subst.
    eapply perm_trans; [apply perm_skip, IH; reflexivity|]. apply perm_swap.
Qed.

Lemma take_node_none (id : nat) (l : list (nat * nat)) :
  take_node id l = None -> ~ In id (map fst l).
Proof.
  induction l as [|[j b] l IH]; simpl; intros H; [tauto|].
  destruct (Nat.eqb_spec j id) as [->|Hne]; [discriminate|].
  destruct (take_node id l) as [[a' r']|]; [discriminate|].
  intros [E|Hin]; [congruence|]. apply IH; auto.
Qed.

End Nodes.

(** What every reachable state satisfies: the recorded start time is not in
    the future, the pause offset is not negative, and node identities are
    fresh: every node mentioned was created before [nextNode], and no node
    is listed twice among the sounding ones. *)
Definition Inv (s : App) : Prop :=
  startTime s <= now s /\ 0 <= pauseOffset s /\
  (forall r, sourceRef s = Some r -> (r < nextNode s)%nat) /\
  NoDup (map fst (sounding s)) /\
  (forall x, In x (sounding s) -> (fst x < nextNode s)%nat).

Ltac inv_intro := unfold Inv; simpl; intros [Ht [Hp [Hr [Hnd Hlt]]]].

Lemma Inv_init : Inv init.
Proof.
  unfold Inv, init; simpl. repeat split; try lia; try constructor; intros; try discriminate; tauto.
Qed.

Lemma Inv_node_ends (id : nat) (s : App) : Inv s -> Inv (node_ends id s).
Proof.
  intros HI. unfold node_ends.
  destruct (take_node id (sounding s)) as [[a r]|] eqn:E; [|exact HI].
  apply take_node_perm in E. revert HI. inv_intro.
  repeat split; auto.
  - apply (Permutation_map fst) in E. simpl in E.
    apply (Permutation_NoDup E) in Hnd. inversion Hnd; assumption.
  - intros x Hx. apply Hlt. apply (Permutation_in (l := (id, a) :: r)).
    + apply Permutation_sym; exact E.
    + right; exact Hx.
Qed.

Lemma Inv_playSegment (index : nat) (offset : Z) (s : App) :
  Inv s -> 0 <= offset -> Inv (playSegment index offset s).
Proof.
  intros HI Hoff. unfold playSegment.
  destruct (Nat.leb (length (buffers s)) index).
  - revert HI. inv_intro. repeat split; auto; lia.
  - revert HI. inv_intro. repeat split; try lia.
    + intros r' Hr'. inversion Hr'; subst. lia.
    + constructor; [|exact Hnd].
      intros Hin. apply in_map_iff in Hin. destruct Hin as [x [Hx Hin]].
      apply Hlt in Hin. lia.
    + intros x [<-|Hin]; simpl; [lia|]. apply Hlt in Hin. lia.
Qed.

Lemma Inv_on_ended (id index : nat) (s : App) : Inv s -> Inv (on_ended id index s).
Proof.
  intros HI. unfold on_ended.
  destruct (sourceRef s) as [r|]; [|exact HI].
  destruct (Nat.eqb r id); [|exact HI].
  apply Inv_playSegment; [exact HI | lia].
Qed.

Lemma Inv_playAudio (s : App) : Inv s -> Inv (playAudio s).
Proof.
  intros HI. apply Inv_playSegment; [exact HI|]. destruct HI as [_ [Hp _]]. exact Hp.
Qed.

Lemma Inv_pauseAudio (s : App) : Inv s -> Inv (pauseAudio s).
Proof.
  intros HI. unfold pauseAudio.
  destruct (sourceRef s) as [id|]; [|exact HI].
  pose proof (Inv_node_ends id s HI) as HI1.
  set (s1 := node_ends id s) in *.
  destruct (duration_at (activeIdx s1) s1 <? now s1 - startTime s1) eqn:E;
    revert HI1; inv_intro; repeat split; auto; try lia; intros; discriminate.
Qed.

Lemma Inv_stopAudio (s : App) : Inv s -> Inv (stopAudio s).
Proof.
  intros HI. unfold stopAudio.
  assert (HI1 : Inv (match sourceRef s with
                     | Some id => node_ends id (set_sourceRef None s)
                     | None => s end)).
  { destruct (sourceRef s) as [id|]; [|exact HI].
    apply Inv_node_ends. revert HI. inv_intro. repeat split; auto. intros; discriminate. }
  revert HI1. inv_intro. repeat split; auto; lia.
Qed.

Lemma Inv_apply (e : Event) (s : App) : Inv s -> Inv (apply e s).
Proof.
  intros HI. destruct e; simpl.
  - unfold handleTogglePlay. destruct (isPlaying s).
    + apply Inv_pauseAudio; exact HI.
    + apply Inv_playAudio; exact HI.
  - apply Inv_playAudio, Inv_stopAudio; exact HI.
  - unfold handleDeepDive. destruct (tutorialData s); [apply Inv_pauseAudio|]; exact HI.
  - destruct (submit_enabled s); [|exact HI].
    unfold handleSubmit_start. pose proof (Inv_stopAudio s HI) as H1.
    revert H1. inv_intro. repeat split; auto; lia.
  - destruct (loading s); try exact HI.
    destruct r; revert HI; inv_intro; repeat split; auto.
  - destruct (loading s); try exact HI.
    unfold handleSubmit_audio. destruct (decode_segments payloads).
    + apply Inv_playAudio. revert HI. inv_intro. repeat split; auto.
    + revert HI. inv_intro. repeat split; auto.
  - revert HI. inv_intro. repeat split; auto. lia.
  - apply Inv_node_ends; exact HI.
  - unfold dispatch. destruct (endedQueue s) as [|[id index] q]; [exact HI|].
    apply Inv_on_ended. revert HI. inv_intro. repeat split; auto.
  - unfold handleExportVideo. destruct (negb container || isExporting s); [exact HI|].
    destruct (tutorialData s); [|exact HI].
    pose proof (Inv_stopAudio s HI) as H1. revert H1. inv_intro. repeat split; auto.
  - unfold export_segment. destruct (job s) as [j|]; [|exact HI].
    destruct (ej_phase j); try exact HI.
    destruct snapshot_ok; [destruct (Nat.ltb (S (ej_step j)) (ej_total j))|];
      revert HI; inv_intro; repeat split; auto.
  - unfold export_data. destruct (job s) as [j|]; [|exact HI].
    destruct (ej_phase j); try exact HI. destruct (Nat.ltb 0 size); exact HI.
  - unfold export_onstop. destruct (job s) as [j|]; [|exact HI].
    destruct (ej_phase j); exact HI.
Qed.

Lemma Inv_run (es : list Event) (s : App) : Inv s -> Inv (run es s).
Proof.
  revert s; induction es as [|e es IH]; intros s HI; simpl; [exact HI|].
  apply IH, Inv_apply; exact HI.
Qed.

Lemma Inv_reachable (es : list Event) : Inv (run es init).
Proof. apply Inv_run, Inv_init. Qed.

(** How the live-node reference may change from [s] to [s']: node
    identities only grow, and the reference is kept, cleared, or set to a
    node created after [s]. *)
Definition ref_fresh (s s' : App) : Prop :=
  (nextNode s <= nextNode s')%nat /\
  (sourceRef s' = sourceRef s \/ sourceRef s' = None \/
   exists n, sourceRef s' = Some n /\ (nextNode s <= n)%nat).

Section Freshness.

Lemma ref_fresh_refl (s : App) : ref_fresh s s.
Proof. split; [lia | left; reflexivity]. Qed.

Lemma ref_fresh_trans (s1 s2 s3 : App) :
  ref_fresh s1 s2 -> ref_fresh s2 s3 -> ref_fresh s1 s3.
Proof.
  intros [H1 R1] [H2 R2]. split; [lia|].
  destruct R2 as [E2|[E2|[n [E2 Hn]]]].
  - rewrite E2. exact R1.
  - right; left; exact E2.
  - right; right; exists n; split; [exact E2 | lia].
Qed.

Lemma ref_fresh_node_ends (id : nat) (s : App) : ref_fresh s (node_ends id s).
Proof.
  unfold node_ends. destruct (take_node id (sounding s)) as [[a r]|];
    [split; [simpl; lia | left; reflexivity] | apply ref_fresh_refl].
Qed.

Lemma ref_fresh_playSegment (index : nat) (offset : Z) (s : App) :
  ref_fresh s (playSegment index offset s).
Proof.
  unfold playSegment. destruct (Nat.leb (length (buffers s)) index).
  - split; [simpl; lia | left; reflexivity].
  - split; simpl; [lia|]. right; right. exists (nextNode s); split; [reflexivity | lia].
Qed.

Lemma ref_fresh_on_ended (id index : nat) (s : App) : ref_fresh s (on_ended id index s).
Proof.
  unfold on_ended. destruct (sourceRef s) as [r|]; [|apply ref_fresh_refl].
  destruct (Nat.eqb r id); [apply ref_fresh_playSegment | apply ref_fresh_refl].
Qed.

Lemma ref_fresh_pauseAudio (s : App) : ref_fresh s (pauseAudio s).
Proof.
  unfold pauseAudio. destruct (sourceRef s) as [id|]; [|apply ref_fresh_refl].
  pose proof (ref_fresh_node_ends id s) as [Hn _].
  destruct (duration_at _ _ <? _); split; simpl; auto.
Qed.

Lemma ref_fresh_stopAudio (s : App) : ref_fresh s (stopAudio s).
Proof.
  unfold stopAudio. destruct (sourceRef s) as [id|] eqn:E.
  - pose proof (ref_fresh_node_ends id (set_sourceRef None s)) as [Hn R].
    split; [simpl in *; lia|]. right; left.
    destruct R as [R|[R|[n [R _]]]]; simpl in *; [exact R | exact R |].
    unfold node_ends in R. destruct (take_node _ _) as [[? ?]|]; discriminate.
  - split; [simpl; lia | left; reflexivity].
Qed.

Lemma ref_fresh_apply (e : Event) (s : App) : ref_fresh s (apply e s).
Proof.
  destruct e; simpl.
  - unfold handleTogglePlay. destruct (isPlaying s);
      [apply ref_fresh_pauseAudio | apply ref_fresh_playSegment].
  - eapply ref_fresh_trans; [apply ref_fresh_stopAudio | apply ref_fresh_playSegment].
  - unfold handleDeepDive. destruct (tutorialData s);
      [apply ref_fresh_pauseAudio | apply ref_fresh_refl].
  - destruct (submit_enabled s); [|apply ref_fresh_refl].
    pose proof (ref_fresh_stopAudio s) as [Hn R]. exact (conj Hn R).
  - destruct (loading s); try apply ref_fresh_refl.
    destruct r; (split; [simpl; lia | left; reflexivity]).
  - destruct (loading s); try apply ref_fresh_refl.
    unfold handleSubmit_audio. destruct (decode_segments payloads);
      [eapply ref_fresh_trans; [|apply ref_fresh_playSegment];
         split; [simpl; lia | left; reflexivity]
      | split; [simpl; lia | left; reflexivity]].
  - split; [simpl; lia | left; reflexivity].
  - apply ref_fresh_node_ends.
  - unfold dispatch. destruct (endedQueue s) as [|[id index] q]; [apply ref_fresh_refl|].
    eapply ref_fresh_trans; [|apply ref_fresh_on_ended].
    split; [simpl; lia | left; reflexivity].
  - unfold handleExportVideo. destruct (negb container || isExporting s); [apply ref_fresh_refl|].
    destruct (tutorialData s); [|apply ref_fresh_refl].
    pose proof (ref_fresh_stopAudio s) as [Hn R]. exact (conj Hn R).
  - unfold export_segment. destruct (job s) as [j|]; [|apply ref_fresh_refl].
    destruct (ej_phase j); try apply ref_fresh_refl.
    destruct snapshot_ok; [destruct (Nat.ltb _ _)|]; (split; [simpl; lia | left; reflexivity]).
  - unfold export_data. destruct (job s) as [j|]; [|apply ref_fresh_refl].
    destruct (ej_phase j); try apply ref_fresh_refl.
    destruct (Nat.ltb 0 size); (split; [simpl; lia | left; reflexivity]).
  - unfold export_onstop. destruct (job s) as [j|]; [|apply ref_fresh_refl].
    destruct (ej_phase j); (split; [simpl; lia | left; reflexivity]).
Qed.

Lemma ref_fresh_run (es : list Event) (s : App) : ref_fresh s (run es s).
Proof.
  revert s; induction es as [|e es IH]; intros s; simpl; [apply ref_fresh_refl|].
  eapply ref_fresh_trans; [apply ref_fresh_apply | apply IH].
Qed.

(** A node that is no longer the live one never becomes live again. *)
Lemma stale_stays_stale (es : list Event) (s : App) (id : nat) :
  (id < nextNode s)%nat -> sourceRef s <> Some id ->
  (id < nextNode (run es s))%nat /\ sourceRef (run es s) <> Some id.
Proof.
  intros Hlt Hne. destruct (ref_fresh_run es s) as [Hn R]. split; [lia|].
  destruct R as [R|[R|[n [R Hn']]]]; rewrite R; [exact Hne | discriminate |].
  intros E; inversion E; lia.
Qed.

Lemma on_ended_stale (id index : nat) (s : App) :
  sourceRef s <> Some id -> on_ended id index s = s.
Proof.
  intros Hne. unfold on_ended. destruct (sourceRef s) as [r|]; [|reflexivity].
  destruct (Nat.eqb_spec r id) as [->|]; [congruence | reflexivity].
Qed.

End Freshness.

(** C1.  Only the completion of the live node can advance the playback.
    (a) The [onended] handler of node [id] calls [playSegment(index + 1, 0)]
    when [audioSourceRef.current] is that very node, and does nothing
    otherwise.  (b) [stopAudio], [pauseAudio] and the start of a submission
    clear the reference.  (c) In every reachable state, once the live node
    [id] has stopped being the live one, whatever happens next (any
    sequence of events), it never becomes live again and its completion,
    whenever it is dispatched, leaves the state unchanged. *)
Theorem stale_completion_is_inert (es : list Event) (e : Event) (id : nat) :
  (forall index s, on_ended id index s =
     match sourceRef s with
     | Some r => if Nat.eqb r id then playSegment (S index) 0 s else s
     | None => s
     end) /\
  (forall s, sourceRef (stopAudio s) = None /\ sourceRef (pauseAudio s) = None /\
             sourceRef (handleSubmit_start s) = None) /\
  (let s := run es init in
   sourceRef s = Some id -> sourceRef (apply e s) <> Some id ->
   forall es' index,
     let s' := run es' (apply e s) in
     sourceRef s' <> Some id /\ on_ended id index s' = s').
Proof.
  split; [reflexivity|].
  split.
  { intros s.
    assert (Hstop : sourceRef (stopAudio s) = None).
    { unfold stopAudio. destruct (sourceRef s) as [r|] eqn:E; simpl; [|exact E].
      unfold node_ends. destruct (take_node _ _) as [[? ?]|]; reflexivity. }
    split; [exact Hstop|]. split; [|exact Hstop].
    unfold pauseAudio. destruct (sourceRef s) as [r|] eqn:E; [|exact E].
    destruct (_ <? _); reflexivity. }
  cbv zeta. intros Hlive Hgone es' index.
  destruct (Inv_reachable es) as [_ [_ [Hr _]]].
  pose proof (Hr id Hlive) as Hlt.
  destruct (ref_fresh_apply e (run es init)) as [Hn _].
  destruct (stale_stays_stale es' (apply e (run es init)) id) as [_ Hne];
    [lia | exact Hgone |].
  split; [exact Hne|]. apply on_ended_stale; exact Hne.
Qed.

Definition payload_two_samples : option jsstr := Some (of_string "AID/fw==").

Lemma stale_completion_is_inert_witness :
  let s := run [ESubmit; EContent (Ok doc_one_step); EAudio [payload_two_samples; None]] init in
  sourceRef s = Some 0%nat /\ sourceRef (apply EReplay s) = Some 1%nat /\
  forall es' index,
    let s' := run es' (apply EReplay s) in
    sourceRef s' <> Some 0%nat /\ on_ended 0 index s' = s'.
Proof.
  split; [vm_compute; reflexivity|]. split; [vm_compute; reflexivity|].
  destruct (stale_completion_is_inert
              [ESubmit; EContent (Ok doc_one_step); EAudio [payload_two_samples; None]]
              EReplay 0) as [_ [_ H]].
  apply H; [vm_compute; reflexivity | vm_compute; discriminate].
Defined.

(* ------------------------------------------------------------------ *)
(** ** Pause *)

Section Pause.

Lemma node_ends_fields (id : nat) (s : App) :
  let s1 := node_ends id s in
  now s1 = now s /\ startTime s1 = startTime s /\ activeIdx s1 = activeIdx s /\
  buffers s1 = buffers s /\ sourceRef s1 = sourceRef s /\ pauseOffset s1 = pauseOffset s /\
  currentStep s1 = currentStep s /\ isPlaying s1 = isPlaying s.
Proof.
  unfold node_ends. destruct (take_node id (sounding s)) as [[a r]|]; repeat split.
Qed.

Lemma node_ends_silences (id : nat) (s : App) :
  NoDup (map fst (sounding s)) -> ~ In id (map fst (sounding (node_ends id s))).
Proof.
  intros Hnd. unfold node_ends.
  destruct (take_node id (sounding s)) as [[a r]|] eqn:E.
  - simpl. apply take_node_perm, (Permutation_map fst) in E. simpl in E.
    apply (Permutation_NoDup E) in Hnd. inversion Hnd; assumption.
  - apply take_node_none; exact E.
Qed.

End Pause.

(** C3.  In every reachable state that is playing segment [i] (a live node,
    [isPlaying]) from the start reference [t0], [pauseAudio] stops the node
    (it no longer sounds), clears the live reference and [isPlaying], and
    computes [off = now - t0]: when [off] does not exceed the duration of
    segment [i] the result is paused at [i] with offset [off], and
    [0 <= off <= duration(i)]; otherwise the active index becomes [i + 1]
    and the offset 0. *)
Theorem pauseAudio_offset (es : list Event) (id : nat) :
  let s := run es init in
  sourceRef s = Some id -> isPlaying s = true ->
  let s' := pauseAudio s in
  let off := now s - startTime s in
  let i := activeIdx s in
  sourceRef s' = None /\ isPlaying s' = false /\ ~ In id (map fst (sounding s')) /\
  ((off <= duration_at i s /\ activeIdx s' = i /\ pauseOffset s' = off /\
    0 <= pauseOffset s' <= duration_at i s) \/
   (duration_at i s < off /\ activeIdx s' = S i /\ pauseOffset s' = 0)).
Proof.
  cbv zeta. intros Hlive _.
  destruct (Inv_reachable es) as [Ht [_ [_ [Hnd _]]]].
  set (s := run es init) in *.
  destruct (node_ends_fields id s) as [En [Es [Ea [Eb _]]]].
  pose proof (node_ends_silences id s Hnd) as Hsil.
  unfold pauseAudio. rewrite Hlive.
  set (s1 := node_ends id s) in *.
  assert (Ed : duration_at (activeIdx s1) s1 = duration_at (activeIdx s) s)
    by (unfold duration_at; rewrite Ea, Eb; reflexivity).
  rewrite Ed, En, Es, Ea.
  destruct (Z.ltb_spec (duration_at (activeIdx s) s) (now s - startTime s)) as [Hgt|Hle].
  - simpl. split; [reflexivity|]. split; [reflexivity|]. split; [exact Hsil|].
    right. repeat split; auto.
  - simpl. split; [reflexivity|]. split; [reflexivity|]. split; [exact Hsil|].
    left. repeat split; auto; lia.
Qed.

Lemma pauseAudio_offset_witness :
  let s := run [ESubmit; EContent (Ok doc_one_step); EAudio [payload_two_samples; None];
                ETick 1] init in
  sourceRef s = Some 0%nat /\ isPlaying s = true /\
  let s' := pauseAudio s in
  let off := now s - startTime s in
  let i := activeIdx s in
  sourceRef s' = None /\ isPlaying s' = false /\ ~ In 0%nat (map fst (sounding s')) /\
  ((off <= duration_at i s /\ activeIdx s' = i /\ pauseOffset s' = off /\
    0 <= pauseOffset s' <= duration_at i s) \/
   (duration_at i s < off /\ activeIdx s' = S i /\ pauseOffset s' = 0)).
Proof.
  split; [vm_compute; reflexivity|]. split; [vm_compute; reflexivity|].
  apply (pauseAudio_offset [ESubmit; EContent (Ok doc_one_step);
                            EAudio [payload_two_samples; None]; ETick 1] 0);
    vm_compute; reflexivity.
Defined.

(* ------------------------------------------------------------------ *)
(** ** Natural completions *)

(** The live node reaches the end of its buffer, and the event loop runs
    its [onended] callback. *)
Definition natural_end (s : App) : App :=
  match sourceRef s with
  | Some id => run [ENodeEnds id; EDispatch] s
  | None => s
  end.

Section Completion.

Lemma playSegment_in_range (index : nat) (offset : Z) (s : App) :
  (index < length (buffers s))%nat ->
  let s' := playSegment index offset s in
  sourceRef s' = Some (nextNode s) /\ sounding s' = (nextNode s, index) :: sounding s /\
  endedQueue s' = endedQueue s /\ activeIdx s' = index /\ currentStep s' = index /\
  isPlaying s' = true /\ startTime s' = now s - offset /\ now s' = now s /\
  buffers s' = buffers s /\ pauseOffset s' = pauseOffset s.
Proof.
  intros H. unfold playSegment.
  replace (Nat.leb (length (buffers s)) index) with false
    by (symmetry; apply Nat.leb_gt; exact H).
  repeat split.
Qed.

Lemma playSegment_out_of_range (index : nat) (offset : Z) (s : App) :
  (length (buffers s) <= index)%nat ->
  playSegment index offset s =
  set_pauseOffset 0 (set_currentStep 0 (set_activeIdx 0 (set_isPlaying false s))).
Proof.
  intros H. unfold playSegment.
  replace (Nat.leb (length (buffers s)) index) with true
    by (symmetry; apply Nat.leb_le; exact H).
  reflexivity.
Qed.

Lemma natural_end_step (s : App) (id k : nat) (r : list (nat * nat)) :
  sourceRef s = Some id -> sounding s = (id, k) :: r -> endedQueue s = [] ->
  natural_end s = playSegment (S k) 0 (set_endedQueue [] (set_sounding r s)).
Proof.
  intros Hr Hs Hq. unfold natural_end. rewrite Hr. simpl.
  unfold node_ends. rewrite Hs. simpl. rewrite Nat.eqb_refl.
  unfold dispatch. simpl. rewrite Hq. simpl.
  unfold on_ended. simpl. rewrite Hr, Nat.eqb_refl. reflexivity.
Qed.

(** Playing segment [k] from its start, with no callback pending. *)
Definition playing_at (bufs : list AudioBuffer) (k : nat) (t : App) : Prop :=
  exists id r,
    sourceRef t = Some id /\ sounding t = (id, k) :: r /\ endedQueue t = [] /\
    activeIdx t = k /\ currentStep t = k /\ isPlaying t = true /\
    buffers t = bufs /\ pauseOffset t = 0 /\ startTime t = now t.

Lemma natural_end_advances (bufs : list AudioBuffer) (k : nat) (t : App) :
  playing_at bufs k t -> (S k < length bufs)%nat -> playing_at bufs (S k) (natural_end t).
Proof.
  intros (id & r & Hr & Hs & Hq & Ha & Hc & Hp & Hb & Ho & Hst) Hlt.
  rewrite (natural_end_step t id k r Hr Hs Hq).
  set (t1 := set_endedQueue [] (set_sounding r t)).
  assert (Hb1 : buffers t1 = bufs) by exact Hb.
  destruct (playSegment_in_range (S k) 0 t1) as
      (R & S & Q & A & C & P & St & N & B & O); [rewrite Hb1; exact Hlt|].
  exists (nextNode t1), (sounding t1).
  repeat split; auto; [rewrite B; exact Hb1 | rewrite O; exact Ho | rewrite St, N; lia].
Qed.

Lemma natural_end_finishes (bufs : list AudioBuffer) (k : nat) (t : App) :
  playing_at bufs k t -> length bufs = S k ->
  let t' := natural_end t in
  activeIdx t' = 0%nat /\ pauseOffset t' = 0 /\ isPlaying t' = false /\
  currentStep t' = 0%nat /\ buffers t' = bufs.
Proof.
  intros (id & r & Hr & Hs & Hq & Ha & Hc & Hp & Hb & Ho & Hst) Hlen.
  cbv zeta. rewrite (natural_end_step t id k r Hr Hs Hq).
  rewrite playSegment_out_of_range; [repeat split; exact Hb|].
  simpl. rewrite Hb. lia.
Qed.

End Completion.

(** C2.  Start from a stopped state at segment 0 with offset 0 and no
    callback pending, holding [N] buffers.  After [play()], letting each
    segment complete naturally plays segments [0, 1, ..., N-1] in order, each
    from its start; the [N]-th completion leaves the active index 0, the
    offset 0, [isPlaying] false and the highlighted step 0; a following
    [play()] starts again at segment 0, offset 0. *)
Theorem natural_completions_end (s : App) :
  isPlaying s = false -> activeIdx s = 0%nat -> pauseOffset s = 0 -> endedQueue s = [] ->
  let N := length (buffers s) in
  let s1 := apply ETogglePlay s in
  (forall k, (k < N)%nat ->
     let sk := Nat.iter k natural_end s1 in
     activeIdx sk = k /\ currentStep sk = k /\ isPlaying sk = true /\
     startTime sk = now sk /\ sourceRef sk <> None) /\
  (let sN := Nat.iter N natural_end s1 in
   activeIdx sN = 0%nat /\ pauseOffset sN = 0 /\ isPlaying sN = false /\
   currentStep sN = 0%nat /\
   ((0 < N)%nat ->
      let s' := apply ETogglePlay sN in
      activeIdx s' = 0%nat /\ currentStep s' = 0%nat /\ isPlaying s' = true /\
      startTime s' = now s')).
Proof.
  intros Hp Ha Ho Hq. cbv zeta.
  assert (E1 : apply ETogglePlay s = playSegment 0 0 s)
    by (simpl; unfold handleTogglePlay, playAudio; rewrite Hp, Ha, Ho; reflexivity).
  rewrite E1.
  assert (Hk : forall k, (k < length (buffers s))%nat ->
             playing_at (buffers s) k (Nat.iter k natural_end (playSegment 0 0 s))).
  { induction k as [|k IH]; intros Hk.
    - destruct (playSegment_in_range 0 0 s) as
          (R & S & Q & A & C & P & St & N & B & O); [exact Hk|].
      simpl. exists (nextNode s), (sounding s).
      repeat split; auto; [rewrite Q; exact Hq | rewrite O; exact Ho | rewrite St, N; lia].
    - simpl. apply natural_end_advances; [apply IH; lia | exact Hk]. }
  split.
  - intros k Hlt. destruct (Hk k Hlt) as (id & r & Hr & _ & _ & Ha' & Hc & Hp' & _ & _ & Hst).
    repeat split; auto. rewrite Hr. discriminate.
  - assert (Hend : let sN := Nat.iter (length (buffers s)) natural_end (playSegment 0 0 s) in
                   activeIdx sN = 0%nat /\ pauseOffset sN = 0 /\ isPlaying sN = false /\
                   currentStep sN = 0%nat /\ buffers sN = buffers s).
    { destruct (length (buffers s)) as [|m] eqn:EN.
      - simpl. rewrite playSegment_out_of_range; [repeat split | lia].
      - simpl. apply (natural_end_finishes (buffers s) m); [apply Hk; lia | exact EN]. }
    cbv zeta in Hend. destruct Hend as (A & O & P & C & B).
    split; [exact A|]. split; [exact O|]. split; [exact P|]. split; [exact C|].
    intros Hpos. simpl. unfold handleTogglePlay, playAudio. rewrite P, A, O.
    destruct (playSegment_in_range 0 0
                (Nat.iter (length (buffers s)) natural_end (playSegment 0 0 s)))
      as (_ & _ & _ & A' & C' & P' & St' & N' & _ & _); [rewrite B; exact Hpos|].
    repeat split; auto. rewrite St', N'. lia.
Qed.

Lemma natural_completions_end_witness :
  let s := run [ESubmit; EContent (Ok doc_one_step); EAudio [payload_two_samples; None];
                ETogglePlay; EDispatch] init in
  isPlaying s = false /\ activeIdx s = 0%nat /\ pauseOffset s = 0 /\ endedQueue s = [] /\
  let N := length (buffers s) in
  let s1 := apply ETogglePlay s in
  (forall k, (k < N)%nat ->
     let sk := Nat.iter k natural_end s1 in
     activeIdx sk = k /\ currentStep sk = k /\ isPlaying sk = true /\
     startTime sk = now sk /\ sourceRef sk <> None) /\
  (let sN := Nat.iter N natural_end s1 in
   activeIdx sN = 0%nat /\ pauseOffset sN = 0 /\ isPlaying sN = false /\
   currentStep sN = 0%nat /\
   ((0 < N)%nat ->
      let s' := apply ETogglePlay sN in
      activeIdx s' = 0%nat /\ currentStep s' = 0%nat /\ isPlaying s' = true /\
      startTime s' = now s')).
Proof.
  split; [vm_compute; reflexivity|]. split; [vm_compute; reflexivity|].
  split; [vm_compute; reflexivity|]. split; [vm_compute; reflexivity|].
  apply natural_completions_end; vm_compute; reflexivity.
Defined.

(* ------------------------------------------------------------------ *)
(** ** Export *)

(** C7.  While an export is in progress ([isExporting] is true), a new
    export request is a no-op: the whole state (the running job, its chunks,
    the playback state) is left unchanged. *)
Theorem second_export_is_noop (s : App) (container : bool) (isTypeSupported : string -> bool) :
  isExporting s = true -> apply (EExport container isTypeSupported) s = s.
Proof.
  intros H. simpl. unfold handleExportVideo. rewrite H, orb_true_r. reflexivity.
Qed.

Lemma second_export_is_noop_witness :
  let s := run [ESubmit; EContent (Ok doc_one_step); EAudio [payload_two_samples; None];
                EExport true (fun _ => false)] init in
  isExporting s = true /\ apply (EExport true (fun _ => true)) s = s.
Proof.
  split; [vm_compute; reflexivity|].
  apply second_export_is_noop. vm_compute. reflexivity.
Defined.

Section ExportFailure.

(** The export fields as one observation. *)
Definition export_view (s : App) : option ExportJob * bool * list (string * list nat) :=
  (job s, isExporting s, downloads s).

Ltac same_view := unfold export_view; simpl; reflexivity.

Lemma view_node_ends (id : nat) (s : App) : export_view (node_ends id s) = export_view s.
Proof. unfold node_ends. destruct (take_node _ _) as [[? ?]|]; same_view. Qed.

Lemma view_playSegment (index : nat) (offset : Z) (s : App) :
  export_view (playSegment index offset s) = export_view s.
Proof. unfold playSegment. destruct (Nat.leb _ _); same_view. Qed.

Lemma view_pauseAudio (s : App) : export_view (pauseAudio s) = export_view s.
Proof.
  unfold pauseAudio. destruct (sourceRef s) as [id|]; [|reflexivity].
  rewrite <- (view_node_ends id s). destruct (_ <? _); same_view.
Qed.

Lemma view_stopAudio (s : App) : export_view (stopAudio s) = export_view s.
Proof.
  unfold stopAudio. destruct (sourceRef s) as [id|].
  - pose proof (view_node_ends id (set_sourceRef None s)) as E.
    unfold export_view in *. simpl in *. rewrite E. reflexivity.
  - same_view.
Qed.

Lemma view_on_ended (id index : nat) (s : App) : export_view (on_ended id index s) = export_view s.
Proof.
  unfold on_ended. destruct (sourceRef s); [destruct (Nat.eqb _ _)|]; try reflexivity.
  apply view_playSegment.
Qed.

(** Once the export function has rejected, no event finalises the job. *)
Lemma rejected_job_stays (e : Event) (s : App) (j : ExportJob) :
  job s = Some j -> ej_phase j = Rejected -> isExporting s = true ->
  export_view (apply e s) = export_view s.
Proof.
  intros Hj Hph Hx. destruct e; simpl.
  - unfold handleTogglePlay. destruct (isPlaying s);
      [apply view_pauseAudio | apply view_playSegment].
  - unfold handleReplay, playAudio. rewrite view_playSegment. apply view_stopAudio.
  - unfold handleDeepDive. destruct (tutorialData s); [apply view_pauseAudio | reflexivity].
  - unfold submit_enabled. rewrite Hx. reflexivity.
  - destruct (loading s); try reflexivity. destruct r; same_view.
  - destruct (loading s); try reflexivity. unfold handleSubmit_audio.
    destruct (decode_segments payloads); [|same_view].
    unfold playAudio. rewrite view_playSegment. same_view.
  - same_view.
  - apply view_node_ends.
  - unfold dispatch. destruct (endedQueue s) as [|[id index] q]; [reflexivity|].
    rewrite view_on_ended. same_view.
  - unfold handleExportVideo. rewrite Hx, orb_true_r. reflexivity.
  - unfold export_segment. rewrite Hj, Hph. reflexivity.
  - unfold export_data. rewrite Hj, Hph. reflexivity.
  - unfold export_onstop. rewrite Hj, Hph. reflexivity.
Qed.

Lemma rejected_job_stays_run (es : list Event) (s : App) (j : ExportJob) :
  job s = Some j -> ej_phase j = Rejected -> isExporting s = true ->
  export_view (run es s) = export_view s.
Proof.
  revert s; induction es as [|e es IH]; intros s Hj Hph Hx; simpl; [reflexivity|].
  pose proof (rejected_job_stays e s j Hj Hph Hx) as E.
  unfold export_view in E. inversion E as [[Ej Ex Ed]].
  rewrite IH; [unfold export_view; rewrite Ej, Ex, Ed; reflexivity | congruence | exact Hph | congruence].
Qed.

End ExportFailure.

(** C8 (counterexample).  A one-step document; the snapshot of segment 1
    fails.  The export function rejects there: the recorder is left paused,
    the job is not finalised, [isExporting] stays true, the selection stays
    at segment 1 and nothing is delivered. *)
Lemma export_failure_leaves_state :
  let s := run [ESubmit; EContent (Ok doc_one_step); EAudio [payload_two_samples; None];
                EExport true (fun _ => false); EExportSegment true; EExportSegment false] init in
  currentStep s = 1%nat /\ isExporting s = true /\ downloads s = [] /\
  job s = Some (mkJob 1 2 RecPaused [] "video/webm" Rejected).
Proof. vm_compute. repeat split. Qed.

(** C8 (amended).  The export loop has no failure handling.  If the
    snapshot of segment [i] fails, [handleExportVideo]'s promise rejects at
    that point: the recorder is left paused (never stopped), the selection
    stays at segment [i], [isExporting] stays true, and, whatever happens
    afterwards, the job is never finalised and nothing is delivered.  Only a
    run that completes stops the recorder; its [onstop] handler delivers the
    artifact made of the accumulated chunks with the probed type, clears
    [isExporting] and resets the selection ([currentStepIndex] and
    [activeBufferIndex]) to segment 0. *)
Theorem export_failure_and_completion (s : App) (j : ExportJob) :
  job s = Some j -> ej_phase j = InLoop -> isExporting s = true ->
  (let s' := export_segment false s in
   job s' = Some (mkJob (ej_step j) (ej_total j) RecPaused (ej_chunks j) (ej_mime j) Rejected) /\
   currentStep s' = ej_step j /\ isExporting s' = true /\ downloads s' = downloads s /\
   forall es, job (run es s') = job s' /\ isExporting (run es s') = true /\
              downloads (run es s') = downloads s) /\
  (S (ej_step j) = ej_total j ->
   exists j', job (export_segment true s) = Some j' /\
              ej_recorder j' = Inactive /\ ej_phase j' = Stopping) /\
  (forall t jt, job t = Some jt -> ej_phase jt = Stopping ->
   let t' := export_onstop t in
   downloads t' = (ej_mime jt, ej_chunks jt) :: downloads t /\ isExporting t' = false /\
   currentStep t' = 0%nat /\ activeIdx t' = 0%nat /\ job t' = None).
Proof.
  intros Hj Hph Hx.
  split.
  - cbv zeta. unfold export_segment. rewrite Hj, Hph. simpl.
    split; [reflexivity|]. split; [reflexivity|]. split; [exact Hx|]. split; [reflexivity|].
    intros es.
    pose proof (rejected_job_stays_run es
                  (set_job (Some (mkJob (ej_step j) (ej_total j) RecPaused (ej_chunks j) (ej_mime j) Rejected))
                     (set_currentStep (ej_step j) s))
                  (mkJob (ej_step j) (ej_total j) RecPaused (ej_chunks j) (ej_mime j) Rejected)
                  eq_refl eq_refl Hx) as E.
    unfold export_view in E. injection E as Ej Ex Ed.
    split; [exact Ej|]. split; [rewrite Ex; exact Hx | exact Ed].
  - split.
    + intros Hlast. unfold export_segment. rewrite Hj, Hph. simpl.
      rewrite <- Hlast, Nat.ltb_irrefl. eexists; repeat split.
    + intros t jt Hjt Hpt. cbv zeta. unfold export_onstop. rewrite Hjt, Hpt. repeat split.
Qed.

Lemma export_failure_and_completion_witness :
  let s := run [ESubmit; EContent (Ok doc_one_step); EAudio [payload_two_samples; None];
                EExport true (fun _ => false); EExportSegment true] init in
  job s = Some (mkJob 1 2 Recording [] "video/webm" InLoop) /\ isExporting s = true /\
  let s' := export_segment false s in
  job s' = Some (mkJob 1 2 RecPaused [] "video/webm" Rejected) /\
  currentStep s' = 1%nat /\ isExporting s' = true /\ downloads s' = downloads s /\
  forall es, job (run es s') = job s' /\ isExporting (run es s') = true /\
             downloads (run es s') = downloads s.
Proof.
  split; [vm_compute; reflexivity|]. split; [vm_compute; reflexivity|].
  destruct (export_failure_and_completion
              (run [ESubmit; EContent (Ok doc_one_step); EAudio [payload_two_samples; None];
                    EExport true (fun _ => false); EExportSegment true] init)
              (mkJob 1 2 Recording [] "video/webm" InLoop))
    as [H _]; [vm_compute; reflexivity | reflexivity | vm_compute; reflexivity | exact H].
Defined.

(* ------------------------------------------------------------------ *)
(** ** Out-of-range segment indices *)

(** The run of the counterexample: a document with one step has two
    segments, each payload two frames long.  Segment 0 ends and its
    [onended] starts segment 1; three frames later, before the node of
    segment 1 is reported ended, the user pauses with the play/pause
    button: the elapsed time exceeds the duration, so [pauseAudio]
    advances the index past the last segment. *)
Definition past_last_segment : list Event :=
  [ESubmit; EContent (Ok doc_one_step); EAudio [payload_two_samples; payload_two_samples];
   ETick 2; ENodeEnds 0; EDispatch; ETick 3; ETogglePlay].

(** C9 (counterexample).  After that pause the active index is 2 with two
    buffers.  A deep dive on the step (its button is shown, since the
    document has a step) pauses again at this out-of-range index and
    changes nothing: the engine does not go to Ended, the index stays 2. *)
Lemma pause_out_of_range_stays :
  let s1 := run past_last_segment init in
  length (steps doc_one_step) = 1%nat /\
  length (buffers s1) = 2%nat /\ activeIdx s1 = 2%nat /\ isPlaying s1 = false /\
  apply EDeepDive s1 = s1 /\ activeIdx (apply EDeepDive s1) = 2%nat.
Proof. vm_compute. repeat split. Qed.

(** C9 (amended).  No operation crashes on a missing or out-of-range
    index (the embedding is total).  [playSegment] (behind play, replay and
    the auto-advance) at an index at or past the number of buffers creates
    no node and goes to Ended: [isPlaying] false, active index 0,
    highlighted step 0, offset 0, nothing else changed.  [pauseAudio] does
    not go to Ended: without a live node it changes nothing, so an index
    pushed past the last segment stays there until the next play or stop;
    with a live node on a missing buffer it reads the duration as 0 and,
    when some time has elapsed, advances the index once more. *)
Theorem out_of_range_index_handling :
  (forall s index offset, (length (buffers s) <= index)%nat ->
     playSegment index offset s =
     set_pauseOffset 0 (set_currentStep 0 (set_activeIdx 0 (set_isPlaying false s)))) /\
  (forall s, (length (buffers s) <= activeIdx s)%nat ->
     let s' := playAudio s in
     isPlaying s' = false /\ activeIdx s' = 0%nat /\ currentStep s' = 0%nat /\
     pauseOffset s' = 0 /\ sourceRef s' = sourceRef s /\ sounding s' = sounding s) /\
  (forall s, sourceRef s = None -> pauseAudio s = s) /\
  (forall s id, sourceRef s = Some id -> nth_error (buffers s) (activeIdx s) = None ->
     0 < now s - startTime s ->
     let s' := pauseAudio s in
     activeIdx s' = S (activeIdx s) /\ pauseOffset s' = 0 /\ isPlaying s' = false /\
     sourceRef s' = None).
Proof.
  split; [intros s index offset; apply playSegment_out_of_range|].
  split.
  { intros s H. cbv zeta. unfold playAudio. rewrite playSegment_out_of_range by exact H.
    repeat split. }
  split.
  { intros s H. unfold pauseAudio. rewrite H. reflexivity. }
  intros s id Hr Hn Hpos. cbv zeta. unfold pauseAudio. rewrite Hr.
  destruct (node_ends_fields id s) as [En [Es [Ea [Eb _]]]].
  assert (Hd : duration_at (activeIdx (node_ends id s)) (node_ends id s) = 0)
    by (unfold duration_at; rewrite Ea, Eb, Hn; reflexivity).
  rewrite Hd, En, Es.
  replace (0 <? now s - startTime s) with true by (symmetry; apply Z.ltb_lt; exact Hpos).
  simpl. rewrite Ea. repeat split.
Qed.

Lemma out_of_range_index_handling_witness :
  let s1 := run past_last_segment init in
  sourceRef s1 = None /\ pauseAudio s1 = s1 /\
  let s2 := playAudio s1 in
  isPlaying s2 = false /\ activeIdx s2 = 0%nat /\ currentStep s2 = 0%nat /\
  pauseOffset s2 = 0 /\ sourceRef s2 = sourceRef s1 /\ sounding s2 = sounding s1.
Proof.
  destruct out_of_range_index_handling as [_ [Hplay [Hpause _]]].
  split; [vm_compute; reflexivity|].
  split; [apply Hpause; vm_compute; reflexivity|].
  apply Hplay. vm_compute. constructor.
Defined.

(* ================================================================== *)
(** * Further properties of the code *)

(* ------------------------------------------------------------------ *)
(** ** [atob] *)

Section Base64.

Lemma b64_index_range (c v : Z) : b64_index c = Some v -> 0 <= v < 64.
Proof.
  unfold b64_index. intros H.
  destruct ((65 <=? c) && (c <=? 90)) eqn:E1;
    [apply andb_true_iff in E1; destruct E1 as [E1 E1']; apply Z.leb_le in E1, E1';
     injection H as <-; lia|].
  destruct ((97 <=? c) && (c <=? 122)) eqn:E2;
    [apply andb_true_iff in E2; destruct E2 as [E2 E2']; apply Z.leb_le in E2, E2';
     injection H as <-; lia|].
  destruct ((48 <=? c) && (c <=? 57)) eqn:E3;
    [apply andb_true_iff in E3; destruct E3 as [E3 E3']; apply Z.leb_le in E3, E3';
     injection H as <-; lia|].
  destruct (c =? 43); [injection H as <-; lia|].
  destruct (c =? 47); [injection H as <-; lia | discriminate].
Qed.

Lemma b64_indices_spec (s : jsstr) (vs : list Z) :
  b64_indices s = Some vs -> length vs = length s /\ Forall (fun v => 0 <= v < 64) vs.
Proof.
  revert vs; induction s as [|c s IH]; intros vs H; simpl in H.
  - injection H as <-. split; [reflexivity | constructor].
  - destruct (b64_index c) as [v|] eqn:Ec; [|discriminate].
    destruct (b64_indices s) as [vs'|]; [|discriminate].
    injection H as <-. destruct (IH vs' eq_refl) as [Hl Hf].
    split; [simpl; lia | constructor; [eapply b64_index_range; exact Ec | exact Hf]].
Qed.

Lemma b64_groups_length (vs : list Z) :
  (length vs mod 4 <> 1)%nat -> length (b64_groups vs) = (3 * length vs / 4)%nat.
Proof.
  remember (length vs) as n eqn:En. revert vs En.
  induction n as [n IH] using (well_founded_induction lt_wf). intros vs En Hn.
  destruct vs as [|a [|b [|c [|d rest]]]]; cbn [length b64_groups] in *; subst n;
    try reflexivity.
  rewrite (IH (length rest)) with (vs := rest); [| lia | reflexivity | ].
  - replace (3 * S (S (S (S (length rest)))))%nat with (3 * length rest + 3 * 4)%nat by lia.
    rewrite Nat.div_add by lia. cbn [length]. lia.
  - replace (S (S (S (S (length rest))))) with (length rest + 1 * 4)%nat in Hn by lia.
    rewrite Nat.Div0.mod_add in Hn. exact Hn.
Qed.

Lemma lor_lt_pow2 (a b k : Z) :
  0 < k -> 0 <= a < 2 ^ k -> 0 <= b < 2 ^ k -> 0 <= Z.lor a b < 2 ^ k.
Proof.
  intros Hk Ha Hb.
  assert (Hnn : 0 <= Z.lor a b) by (apply Z.lor_nonneg; lia).
  split; [exact Hnn|].
  destruct (Z.eq_dec (Z.lor a b) 0) as [E|NE]; [rewrite E; lia|].
  apply Z.log2_lt_pow2; [lia|].
  rewrite Z.log2_lor by lia. apply Z.max_lub_lt.
  - destruct (Z.eq_dec a 0) as [->|]; [simpl; lia|]. apply Z.log2_lt_pow2; lia.
  - destruct (Z.eq_dec b 0) as [->|]; [simpl; lia|]. apply Z.log2_lt_pow2; lia.
Qed.

Lemma shiftl_lt_pow2 (a j k : Z) :
  0 <= j -> 0 <= k -> 0 <= a < 2 ^ k -> 0 <= Z.shiftl a j < 2 ^ (k + j).
Proof.
  intros Hj Hk Ha. rewrite Z.shiftl_mul_pow2 by exact Hj. rewrite Z.pow_add_r by lia.
  assert (0 < 2 ^ j) by (apply Z.pow_pos_nonneg; lia). nia.
Qed.

Lemma byte_of_land (x : Z) : 0 <= Z.land x 255 < 256.
Proof.
  change 255 with (Z.ones 8). rewrite Z.land_ones by lia.
  apply Z.mod_pos_bound. reflexivity.
Qed.

Lemma byte_of_shiftr (n j : Z) :
  0 <= j -> 0 <= n < 2 ^ (j + 8) -> 0 <= Z.shiftr n j < 256.
Proof.
  intros Hj Hn. rewrite Z.shiftr_div_pow2 by exact Hj.
  assert (0 < 2 ^ j) by (apply Z.pow_pos_nonneg; lia).
  rewrite Z.pow_add_r in Hn by lia. change (2 ^ 8) with 256 in Hn.
  split; [apply Z.div_pos; lia|]. apply Z.div_lt_upper_bound; lia.
Qed.

Lemma b64_groups_bytes (vs : list Z) :
  Forall (fun v => 0 <= v < 64) vs -> Forall (fun b => 0 <= b < 256) (b64_groups vs).
Proof.
  remember (length vs) as n eqn:En. revert vs En.
  induction n as [n IH] using (well_founded_induction lt_wf). intros vs En Hf.
  assert (H6 : forall v j, 6 <= j -> 0 <= v < 64 -> 0 <= v < 2 ^ j).
  { intros v j Hj Hv. split; [lia|]. apply (Z.lt_le_trans _ (2 ^ 6)); [exact (proj2 Hv)|].
    apply Z.pow_le_mono_r; lia. }
  assert (Hlift : forall v i j, 0 <= i -> 6 + i <= j -> 0 <= v < 64 -> 0 <= Z.shiftl v i < 2 ^ j).
  { intros v i j Hi Hj Hv. pose proof (shiftl_lt_pow2 v i 6 Hi ltac:(lia) Hv) as [H1 H2].
    split; [exact H1|]. apply (Z.lt_le_trans _ _ _ H2). apply Z.pow_le_mono_r; lia. }
  destruct vs as [|a [|b [|c [|d rest]]]]; cbn [b64_groups];
    [constructor | constructor | | |].
  - inversion Hf as [|? ? Ha Hf1]; inversion Hf1 as [|? ? Hb _]; subst.
    constructor; [|constructor].
    apply byte_of_shiftr; [lia|].
    apply lor_lt_pow2; [lia | apply Hlift; lia | apply H6; lia].
  - inversion Hf as [|? ? Ha Hf1]; inversion Hf1 as [|? ? Hb Hf2];
      inversion Hf2 as [|? ? Hc _]; subst.
    assert (Hn : 0 <= Z.lor (Z.shiftl a 12) (Z.lor (Z.shiftl b 6) c) < 2 ^ (10 + 8)).
    { apply lor_lt_pow2; [lia | apply Hlift; lia |].
      apply lor_lt_pow2; [lia | apply Hlift; lia | apply H6; lia]. }
    constructor; [apply byte_of_shiftr; [lia | exact Hn]|].
    constructor; [apply byte_of_land | constructor].
  - inversion Hf as [|? ? Ha Hf1]; inversion Hf1 as [|? ? Hb Hf2];
      inversion Hf2 as [|? ? Hc Hf3]; inversion Hf3 as [|? ? Hd Hf4]; subst.
    assert (Hn : 0 <= Z.lor (Z.shiftl a 18) (Z.lor (Z.shiftl b 12) (Z.lor (Z.shiftl c 6) d))
                 < 2 ^ (16 + 8)).
    { apply lor_lt_pow2; [lia | apply Hlift; lia |].
      apply lor_lt_pow2; [lia | apply Hlift; lia |].
      apply lor_lt_pow2; [lia | apply Hlift; lia | apply H6; lia]. }
    constructor; [apply byte_of_shiftr; [lia | exact Hn]|].
    constructor; [apply byte_of_land|]. constructor; [apply byte_of_land|].
    apply (IH (length rest)); [cbn [length]; lia | reflexivity | exact Hf4].
Qed.

Lemma filter_keep_all {A : Type} (f : A -> bool) (l : list A) :
  forallb f l = true -> filter f l = l.
Proof.
  induction l as [|x l IH]; simpl; [reflexivity|].
  intros H. apply andb_true_iff in H. destruct H as [Hx Hl]. rewrite Hx, IH; auto.
Qed.

End Base64.

(** X1.  Every successful [atob] returns [floor(3 L / 4)] bytes, where [L]
    is the number of base64 characters left once ASCII whitespace and the
    final padding are removed: three bytes per full group of four
    characters, and one (two) bytes for a trailing group of two (three). *)
Theorem atob_output_length (s bin : jsstr) :
  atob s = Ok bin ->
  length bin =
    (3 * length (drop_padding (filter (fun c => negb (is_ascii_whitespace c)) s)) / 4)%nat.
Proof.
  unfold atob. set (d := drop_padding _). intros H.
  destruct (Nat.eqb (length d mod 4) 1) eqn:Em; [discriminate|].
  destruct (b64_indices d) as [vs|] eqn:Ei; [|discriminate].
  injection H as <-. destruct (b64_indices_spec d vs Ei) as [Hl _].
  rewrite b64_groups_length; [rewrite Hl; reflexivity|].
  rewrite Hl. apply Nat.eqb_neq; exact Em.
Qed.

Lemma atob_output_length_witness :
  atob (of_string " aGk =") = Ok [104; 105] /\ length [104; 105] = 2%nat.
Proof.
  split; [reflexivity|].
  exact (atob_output_length (of_string " aGk =") [104; 105] eq_refl).
Defined.

(** X2.  Every value [atob] produces is a byte, in [[0, 255]]; so the
    [Uint8Array] store of [decode] keeps the decoded string unchanged. *)
Theorem atob_bytes_decode (s bin : jsstr) :
  atob s = Ok bin -> Forall (fun b => 0 <= b < 256) bin /\ decode s = Ok bin.
Proof.
  unfold decode. intros H. rewrite H. simpl.
  unfold atob in H. set (d := drop_padding _) in H.
  destruct (Nat.eqb (length d mod 4) 1); [discriminate|].
  destruct (b64_indices d) as [vs|] eqn:Ei; [|discriminate].
  injection H as <-. destruct (b64_indices_spec d vs Ei) as [_ Hf].
  pose proof (b64_groups_bytes vs Hf) as Hb. split; [exact Hb|].
  f_equal. induction Hb as [|b l Hb1 _ IH]; simpl; [reflexivity|].
  rewrite Z.mod_small by exact Hb1. rewrite IH. reflexivity.
Qed.

Lemma atob_bytes_decode_witness :
  Forall (fun b => 0 <= b < 256) [0; 128; 255; 127] /\ decode (of_string "AID/fw==") = Ok [0; 128; 255; 127].
Proof. apply atob_bytes_decode. reflexivity. Defined.

(** X3.  Padding is optional: for a string of base64 alphabet characters,
    appending the [==] (after two characters of a last group) or the [=]
    (after three) that complete its last group does not change what [atob]
    returns. *)
Theorem atob_padding_optional (s : jsstr) :
  forallb (fun c => match b64_index c with Some _ => true | None => false end) s = true ->
  ((length s mod 4 = 2)%nat -> atob (s ++ [61; 61]) = atob s) /\
  ((length s mod 4 = 3)%nat -> atob (s ++ [61]) = atob s).
Proof.
  intros Hs.
  assert (Hnw : forall t, forallb (fun c => match b64_index c with Some _ => true | None => false end) t = true ->
                  filter (fun c => negb (is_ascii_whitespace c)) t = t).
  { intros t Ht. apply filter_keep_all. rewrite forallb_forall in *. intros c Hc.
    specialize (Ht c Hc). unfold b64_index, is_ascii_whitespace in *.
    destruct (Z.eqb_spec c 9) as [->|]; [discriminate|].
    destruct (Z.eqb_spec c 10) as [->|]; [discriminate|].
    destruct (Z.eqb_spec c 12) as [->|]; [discriminate|].
    destruct (Z.eqb_spec c 13) as [->|]; [discriminate|].
    destruct (Z.eqb_spec c 32) as [->|]; [discriminate|]. reflexivity. }
  assert (Hlast : forall r, forallb (fun c => match b64_index c with Some _ => true | None => false end) r = true ->
                    match rev r with b :: _ => b =? 61 | [] => false end = false).
  { intros r Hr. destruct (rev r) as [|b r'] eqn:E; [reflexivity|].
    assert (Hin : In b r) by (apply in_rev; rewrite E; left; reflexivity).
    rewrite forallb_forall in Hr. specialize (Hr b Hin).
    destruct (Z.eqb_spec b 61) as [->|]; [discriminate | reflexivity]. }
  assert (Hkeep : forall t, (length t mod 4 <> 0)%nat -> drop_padding t = t).
  { intros t Ht. unfold drop_padding. destruct (Nat.eqb_spec (length t mod 4) 0); tauto. }
  assert (Hmod : forall k m, (length s mod 4 = m)%nat -> (m + k = 4)%nat ->
                   (length (s ++ repeat 61%Z k) mod 4 = 0)%nat).
  { intros k m Hm Hk. rewrite length_app, repeat_length, <- Nat.Div0.add_mod_idemp_l, Hm, Hk.
    reflexivity. }
  unfold atob. split; intros Hm; rewrite filter_app, (Hnw s Hs).
  - change (filter (fun c => negb (is_ascii_whitespace c)) [61; 61]) with (repeat 61%Z 2).
    assert (Hd : drop_padding (s ++ repeat 61%Z 2) = s).
    { unfold drop_padding. rewrite (Hmod 2%nat 2%nat Hm eq_refl). cbn [Nat.eqb].
      rewrite rev_app_distr. cbn. apply rev_involutive. }
    rewrite Hd, (Hkeep s) by (rewrite Hm; discriminate). reflexivity.
  - change (filter (fun c => negb (is_ascii_whitespace c)) [61]) with (repeat 61%Z 1).
    assert (Hd : drop_padding (s ++ repeat 61%Z 1) = s).
    { unfold drop_padding. rewrite (Hmod 1%nat 3%nat Hm eq_refl). cbn [Nat.eqb].
      rewrite rev_app_distr. cbn [repeat rev app]. rewrite Z.eqb_refl.
      pose proof (Hlast s Hs) as Hl. destruct (rev s) as [|b r'] eqn:E.
      - apply (f_equal (@length Z)) in E. rewrite length_rev in E. cbn in E.
        rewrite E in Hm. discriminate.
      - rewrite Hl, <- E. apply rev_involutive. }
    rewrite Hd, (Hkeep s) by (rewrite Hm; discriminate). reflexivity.
Qed.

Lemma atob_padding_optional_witness :
  atob (of_string "aG" ++ [61; 61]) = atob (of_string "aG") /\
  atob (of_string "aGk" ++ [61]) = atob (of_string "aGk").
Proof.
  destruct (atob_padding_optional (of_string "aGk") eq_refl) as [_ H3].
  destruct (atob_padding_optional (of_string "aG") eq_refl) as [H2 _].
  split; [apply H2 | apply H3]; reflexivity.
Defined.

(** X4.  The little-endian [Int16Array] reading loses nothing: two bytes
    give a value in [[-32768, 32767]] from which both bytes are recovered,
    and every such value is read back from its own two bytes. *)
Theorem int16_of_roundtrip (lo hi : Z) :
  0 <= lo < 256 -> 0 <= hi < 256 ->
  let v := int16_of lo hi in
  (-32768 <= v < 32768 /\ v mod 256 = lo /\ (v / 256) mod 256 = hi) /\
  (forall w, -32768 <= w < 32768 -> int16_of (w mod 256) ((w / 256) mod 256) = w).
Proof.
  intros Hlo Hhi. cbv zeta. split.
  - unfold int16_of. destruct (Z.ltb_spec (lo + 256 * hi) 32768);
      (split; [lia | split; Z.div_mod_to_equations; lia]).
  - intros w Hw. unfold int16_of.
    destruct (Z.ltb_spec (w mod 256 + 256 * ((w / 256) mod 256)) 32768);
      Z.div_mod_to_equations; lia.
Qed.

Lemma int16_of_roundtrip_witness :
  int16_of 0 128 = -32768 /\ int16_of ((-2) mod 256) (((-2) / 256) mod 256) = -2.
Proof.
  split; [reflexivity|].
  destruct (int16_of_roundtrip 0 128 ltac:(lia) ltac:(lia)) as [_ H].
  apply H. lia.
Defined.

(* ------------------------------------------------------------------ *)
(** ** One narration voice *)

Definition generating (l : LoadingState) : bool :=
  match l with GENERATING_CONTENT | GENERATING_AUDIO => true | _ => false end.

(** Besides [Inv]: only the live node may sound, and nothing sounds unless
    [isPlaying]; a queued [onended] belongs to a node that no longer sounds;
    [isPlaying] needs a live node, a live node an existing buffer; while
    the content or the audio is generated there are no buffers and no
    playback. *)
Definition Voice (s : App) : Prop :=
  (forall x, In x (sounding s) -> sourceRef s = Some (fst x)) /\
  (isPlaying s = false -> sounding s = []) /\
  (forall q, In q (endedQueue s) ->
     ~ In (fst q) (map fst (sounding s)) /\ (fst q < nextNode s)%nat) /\
  (isPlaying s = true -> sourceRef s <> None) /\
  (forall r, sourceRef s = Some r -> (activeIdx s < length (buffers s))%nat) /\
  (generating (loading s) = true -> buffers s = [] /\ isPlaying s = false /\ sourceRef s = None).

Ltac voice_intro := unfold Voice; simpl; intros [VA [VB [VC [VD [VE VF]]]]].

Ltac split6 := split; [|split; [|split; [|split; [|split]]]].

Section VoiceInvariant.

Lemma Voice_init : Voice init.
Proof.
  unfold Voice, init; simpl. repeat split; intros; try discriminate; try contradiction; tauto.
Qed.

(** The nodes that sound are the live one, at most once. *)
Lemma live_shape (s : App) :
  Inv s -> Voice s ->
  (sourceRef s = None /\ sounding s = []) \/
  (exists id, sourceRef s = Some id /\
     (sounding s = [] \/ exists a, sounding s = [(id, a)])).
Proof.
  intros [_ [_ [_ [Hnd _]]]] [VA _].
  destruct (sourceRef s) as [id|] eqn:Er.
  - right. exists id. split; [reflexivity|].
    destruct (sounding s) as [|[j a] [|[k b] l]] eqn:Es; [left; reflexivity| |].
    + right. exists a. assert (E : Some id = Some j) by (apply (VA (j, a)); left; reflexivity).
      injection E as ->. reflexivity.
    + exfalso. assert (E1 : Some id = Some j) by (apply (VA (j, a)); left; reflexivity).
      assert (E2 : Some id = Some k) by (apply (VA (k, b)); right; left; reflexivity).
      injection E1 as <-. injection E2 as <-. simpl in Hnd.
      inversion Hnd as [|? ? Hn _]. apply Hn. left; reflexivity.
  - left. split; [reflexivity|].
    destruct (sounding s) as [|x l]; [reflexivity|].
    exfalso. specialize (VA x (or_introl eq_refl)). discriminate.
Qed.

Lemma Voice_node_ends (id : nat) (s : App) : Inv s -> Voice s -> Voice (node_ends id s).
Proof.
  intros HI HV. unfold node_ends.
  destruct (take_node id (sounding s)) as [[a r]|] eqn:E; [|exact HV].
  pose proof (take_node_perm _ _ _ _ E) as Hp.
  destruct HI as [_ [_ [_ [Hnd Hlt]]]].
  assert (Hnd' : NoDup (id :: map fst r)).
  { apply (Permutation_map fst) in Hp. simpl in Hp. exact (Permutation_NoDup Hp Hnd). }
  assert (Hsub : forall x, In x r -> In x (sounding s)).
  { intros x Hx. apply (Permutation_in (l := (id, a) :: r)); [apply Permutation_sym; exact Hp | right; exact Hx]. }
  assert (Hida : In (id, a) (sounding s)).
  { apply (Permutation_in (l := (id, a) :: r)); [apply Permutation_sym; exact Hp | left; reflexivity]. }
  revert HV. voice_intro. split6.
  - intros x Hx. apply VA, Hsub, Hx.
  - intros Hf. specialize (VB Hf). rewrite VB in E. discriminate.
  - intros q Hin. apply in_app_or in Hin as [Hin|[<-|[]]].
    + split; [|apply (VC q Hin)]. intros H. apply (VC q Hin).
      apply in_map_iff in H. destruct H as [y [Hy Hy']].
      apply in_map_iff. exists y; split; [exact Hy | apply Hsub; exact Hy'].
    + split; [simpl; inversion Hnd'; assumption | apply (Hlt (id, a) Hida)].
  - exact VD.
  - exact VE.
  - exact VF.
Qed.

Lemma Voice_playSegment (index : nat) (offset : Z) (s : App) :
  Inv s -> Voice s -> sounding s = [] -> Voice (playSegment index offset s).
Proof.
  intros HI HV Hs. destruct HI as [_ [_ [_ [_ Hlt]]]]. unfold playSegment.
  destruct (Nat.leb_spec (length (buffers s)) index) as [Hle|Hgt].
  - revert HV. voice_intro. rewrite Hs in *. split6.
    + intros x [].
    + intros _. reflexivity.
    + exact VC.
    + discriminate.
    + intros r Hr. specialize (VE r Hr). lia.
    + intros Hg. destruct (VF Hg) as [Hb [_ Hr]]. auto.
  - revert HV. voice_intro. rewrite Hs in *. split6.
    + intros x [<-|[]]. reflexivity.
    + discriminate.
    + intros q Hq. destruct (VC q Hq) as [_ Hlt']. split; [|lia].
      intros [E|[]]. simpl in E. lia.
    + discriminate.
    + intros r _. exact Hgt.
    + intros Hg. destruct (VF Hg) as [Hb _]. rewrite Hb in Hgt. simpl in Hgt. lia.
Qed.

Lemma silent_voice (t : App) :
  sounding t = [] -> sourceRef t = None -> isPlaying t = false ->
  (forall q, In q (endedQueue t) -> (fst q < nextNode t)%nat) ->
  (generating (loading t) = true -> buffers t = []) -> Voice t.
Proof.
  intros Hs Hr Hp Hq Hg. unfold Voice. rewrite Hs, Hr, Hp. split6.
  - intros x [].
  - intros _; reflexivity.
  - intros q Hin. split; [intros []| apply Hq, Hin].
  - discriminate.
  - discriminate.
  - intros G. split; [apply Hg, G | split; reflexivity].
Qed.

Lemma node_ends_queue (id : nat) (u : App) (q : nat * nat) :
  In q (endedQueue (node_ends id u)) -> In q (endedQueue u) \/ In q (sounding u).
Proof.
  unfold node_ends. destruct (take_node id (sounding u)) as [[a r]|] eqn:E; [|left; exact H].
  simpl. intros Hin. apply in_app_or in Hin as [Hin|[<-|[]]]; [left; exact Hin|].
  right. apply (Permutation_in (l := (id, a) :: r));
    [apply Permutation_sym, take_node_perm; exact E | left; reflexivity].
Qed.

Lemma node_ends_keeps (id : nat) (u : App) :
  nextNode (node_ends id u) = nextNode u /\ loading (node_ends id u) = loading u /\
  buffers (node_ends id u) = buffers u /\ sourceRef (node_ends id u) = sourceRef u.
Proof. unfold node_ends. destruct (take_node id (sounding u)) as [[a r]|]; repeat split. Qed.

(** Stopping the live node leaves nothing sounding. *)
Lemma node_ends_live (id : nat) (u : App) :
  (sounding u = [] \/ exists a, sounding u = [(id, a)]) -> sounding (node_ends id u) = [].
Proof.
  unfold node_ends. intros [Hs|[a Hs]]; rewrite Hs; simpl; [exact Hs|].
  rewrite Nat.eqb_refl. reflexivity.
Qed.

Lemma Voice_pauseAudio (s : App) :
  Inv s -> Voice s -> Voice (pauseAudio s) /\ sounding (pauseAudio s) = [].
Proof.
  intros HI HV. destruct (live_shape s HI HV) as [[Hr Hs]|[id [Hr Hs]]].
  - unfold pauseAudio. rewrite Hr. split; [exact HV | exact Hs].
  - destruct HI as [_ [_ [HIr [_ Hlt]]]]. destruct HV as [_ [_ [VC [_ [_ VF]]]]].
    pose proof (node_ends_live id s Hs) as Hs1.
    destruct (node_ends_keeps id s) as [Hn [Hl [Hb _]]].
    assert (Hq : forall q, In q (endedQueue (node_ends id s)) -> (fst q < nextNode (node_ends id s))%nat).
    { intros q Hin. rewrite Hn. apply node_ends_queue in Hin as [Hin|Hin];
        [apply (VC q Hin) | apply (Hlt q Hin)]. }
    unfold pauseAudio. rewrite Hr.
    set (s1 := node_ends id s) in *. clearbody s1.
    destruct (_ <? _); (split; [apply silent_voice; simpl; auto | exact Hs1]);
      rewrite Hl; intros G; destruct (VF G) as [Hb' _]; rewrite Hb; exact Hb'.
Qed.

Lemma Voice_stopAudio (s : App) :
  Inv s -> Voice s -> Voice (stopAudio s) /\ sounding (stopAudio s) = [].
Proof.
  intros HI HV. destruct (live_shape s HI HV) as [[Hr Hs]|[id [Hr Hs]]].
  - destruct HV as [_ [_ [VC [_ [_ VF]]]]].
    unfold stopAudio. rewrite Hr. split; [|exact Hs].
    apply silent_voice; simpl; auto.
    + intros q Hin. apply (VC q Hin).
    + intros G. apply (VF G).
  - destruct HI as [_ [_ [HIr [_ Hlt]]]]. destruct HV as [_ [_ [VC [_ [_ VF]]]]].
    set (u := set_sourceRef None s).
    assert (Hsu : sounding u = [] \/ exists a, sounding u = [(id, a)]) by exact Hs.
    pose proof (node_ends_live id u Hsu) as Hs1.
    destruct (node_ends_keeps id u) as [Hn [Hl [Hb Hr1]]].
    assert (Hq : forall q, In q (endedQueue (node_ends id u)) -> (fst q < nextNode (node_ends id u))%nat).
    { intros q Hin. rewrite Hn. apply node_ends_queue in Hin as [Hin|Hin];
        [apply (VC q Hin) | apply (Hlt q Hin)]. }
    unfold stopAudio. rewrite Hr. fold u.
    set (s1 := node_ends id u) in *. clearbody s1.
    split; [|exact Hs1]. apply silent_voice; simpl; auto.
    rewrite Hl. intros G. destruct (VF G) as [Hb' _]. rewrite Hb. exact Hb'.
Qed.

Lemma stopAudio_off (s : App) : sourceRef (stopAudio s) = None /\ isPlaying (stopAudio s) = false.
Proof.
  unfold stopAudio. destruct (sourceRef s) as [id|] eqn:E; simpl; [|split; [exact E | reflexivity]].
  split; [|reflexivity]. apply (node_ends_keeps id (set_sourceRef None s)).
Qed.

Lemma Voice_apply (e : Event) (s : App) : Inv s -> Voice s -> Voice (apply e s).
Proof.
  intros HI HV. destruct e; simpl.
  - unfold handleTogglePlay. destruct (isPlaying s) eqn:Ep.
    + apply Voice_pauseAudio; assumption.
    + apply Voice_playSegment; [exact HI | exact HV | apply HV; exact Ep].
  - unfold handleReplay, playAudio. destruct (Voice_stopAudio s HI HV) as [HV1 Hs1].
    apply Voice_playSegment; [apply Inv_stopAudio; exact HI | exact HV1 | exact Hs1].
  - unfold handleDeepDive. destruct (tutorialData s); [apply Voice_pauseAudio; assumption | exact HV].
  - destruct (submit_enabled s); [|exact HV].
    unfold handleSubmit_start. destruct (Voice_stopAudio s HI HV) as [HV1 Hs1].
    destruct (stopAudio_off s) as [Hr Hp].
    destruct HV1 as [_ [_ [VC _]]].
    apply silent_voice; simpl; auto. intros q Hq. apply (VC q Hq).
  - destruct (loading s) eqn:El; try exact HV.
    destruct HV as [VA [VB [VC [VD [VE VF]]]]].
    destruct (VF ltac:(rewrite El; reflexivity)) as [Hb [Hp Hr]].
    destruct r; apply silent_voice; simpl; auto; try (intros q Hq; apply (VC q Hq)).
  - destruct (loading s) eqn:El; try exact HV.
    destruct HV as [VA [VB [VC [VD [VE VF]]]]].
    destruct (VF ltac:(rewrite El; reflexivity)) as [Hb0 [Hp0 Hr0]].
    unfold handleSubmit_audio. destruct (decode_segments payloads) as [bs|e].
    + apply Voice_playSegment.
      * revert HI. inv_intro. repeat split; auto.
      * apply silent_voice; simpl; auto; try (intros q Hq; apply (VC q Hq)); discriminate.
      * simpl. apply VB, Hp0.
    + apply silent_voice; simpl; auto; try (intros q Hq; apply (VC q Hq)); discriminate.
  - exact HV.
  - apply Voice_node_ends; assumption.
  - unfold dispatch. destruct (endedQueue s) as [|[id index] q] eqn:Eq; [exact HV|].
    assert (HVt : Voice (set_endedQueue q s)).
    { revert HV. voice_intro. rewrite Eq in VC. split6; auto.
      intros q' Hq'. apply VC. right; exact Hq'. }
    unfold on_ended. simpl. destruct (sourceRef s) as [r|] eqn:Er; [|exact HVt].
    destruct (Nat.eqb_spec r id) as [->|]; [|exact HVt].
    apply Voice_playSegment; [exact HI | exact HVt|].
    destruct HV as [VA [_ [VC _]]]. rewrite Eq in VC.
    destruct (VC (id, index) (or_introl eq_refl)) as [Hni _]. simpl in Hni |- *.
    destruct (sounding s) as [|x l] eqn:Es; [reflexivity|].
    exfalso. apply Hni. specialize (VA x (or_introl eq_refl)). rewrite Er in VA.
    injection VA as E. simpl. left. symmetry. exact E.
  - unfold handleExportVideo. destruct (negb container || isExporting s); [exact HV|].
    destruct (tutorialData s); [|exact HV].
    apply Voice_stopAudio; assumption.
  - unfold export_segment. destruct (job s) as [j|]; [|exact HV].
    destruct (ej_phase j); try exact HV.
    destruct snapshot_ok; [destruct (Nat.ltb (S (ej_step j)) (ej_total j))|]; exact HV.
  - unfold export_data. destruct (job s) as [j|]; [|exact HV].
    destruct (ej_phase j); try exact HV. destruct (Nat.ltb 0 size); exact HV.
  - unfold export_onstop. destruct (job s) as [j|]; [|exact HV].
    destruct (ej_phase j); try exact HV.
    revert HV. voice_intro. split6; auto. intros r Hr. specialize (VE r Hr). lia.
Qed.

Lemma Voice_run (es : list Event) (s : App) : Inv s -> Voice s -> Voice (run es s).
Proof.
  revert s; induction es as [|e es IH]; intros s HI HV; simpl; [exact HV|].
  apply IH; [apply Inv_apply; exact HI | apply Voice_apply; assumption].
Qed.

Lemma Voice_reachable (es : list Event) : Voice (run es init).
Proof. apply Voice_run; [apply Inv_init | apply Voice_init]. Qed.

End VoiceInvariant.

Lemma stopAudio_keeps (s : App) :
  nextNode (stopAudio s) = nextNode s /\ now (stopAudio s) = now s /\
  buffers (stopAudio s) = buffers s /\ activeIdx (stopAudio s) = 0%nat /\
  pauseOffset (stopAudio s) = 0 /\ loading (stopAudio s) = loading s.
Proof.
  unfold stopAudio. destruct (sourceRef s) as [id|]; simpl; [|repeat split].
  destruct (node_ends_keeps id (set_sourceRef None s)) as [Hn [Hl [Hb _]]].
  destruct (node_ends_fields id (set_sourceRef None s)) as [Hnow _].
  repeat split; assumption.
Qed.

Lemma toggle_paused (t : App) :
  isPlaying t = false -> apply ETogglePlay t = playSegment (activeIdx t) (pauseOffset t) t.
Proof. intros H. simpl. unfold handleTogglePlay. rewrite H. reflexivity. Qed.

(** X5.  In every reachable state at most one interactive node sounds, and
    it is the live one ([audioSourceRef.current]); nothing sounds while
    [isPlaying] is false, and [isPlaying] is true only with a live node. *)
Theorem single_narration_voice (es : list Event) :
  let s := run es init in
  (length (sounding s) <= 1)%nat /\
  (forall x, In x (sounding s) -> sourceRef s = Some (fst x)) /\
  (isPlaying s = false -> sounding s = []) /\
  (isPlaying s = true -> sourceRef s <> None).
Proof.
  cbv zeta. pose proof (Voice_reachable es) as HV. pose proof (Inv_reachable es) as HI.
  destruct (live_shape _ HI HV) as [[_ Hs]|[id [_ [Hs|[a Hs]]]]];
    (split; [rewrite Hs; simpl; lia|]); destruct HV as [VA [VB [_ [VD _]]]]; auto.
Qed.

(** X6.  In every reachable state with a live node, the active index
    designates an existing buffer: the [|| 0] fallback of [pauseAudio]'s
    duration lookup is never taken while a node is live. *)
Theorem live_segment_exists (es : list Event) (r : nat) :
  let s := run es init in
  sourceRef s = Some r ->
  exists b, nth_error (buffers s) (activeIdx s) = Some b /\ duration_at (activeIdx s) s = duration b.
Proof.
  cbv zeta. intros Hr. destruct (Voice_reachable es) as [_ [_ [_ [_ [VE _]]]]].
  specialize (VE r Hr). destruct (nth_error (buffers (run es init)) (activeIdx (run es init))) as [b|] eqn:E.
  - exists b. split; [reflexivity|]. unfold duration_at. rewrite E. reflexivity.
  - apply nth_error_None in E. lia.
Qed.

Lemma live_segment_exists_witness :
  let s := run [ESubmit; EContent (Ok doc_one_step); EAudio [payload_two_samples; None]] init in
  sourceRef s = Some 0%nat /\
  exists b, nth_error (buffers s) (activeIdx s) = Some b /\ duration_at (activeIdx s) s = duration b.
Proof.
  cbv zeta. split; [vm_compute; reflexivity|].
  apply (live_segment_exists [ESubmit; EContent (Ok doc_one_step); EAudio [payload_two_samples; None]] 0).
  vm_compute. reflexivity.
Defined.

(** X7.  Pausing then playing again, in a reachable playing state: if the
    time elapsed in the segment does not exceed its duration, a new node
    resumes the same segment at the same position; otherwise playback moves
    on to the next segment from its start, or, after the last one, stops
    and returns to segment 0. *)
Theorem pause_resume_roundtrip (es : list Event) :
  let s := run es init in
  isPlaying s = true ->
  let i := activeIdx s in
  let off := now s - startTime s in
  let s' := apply ETogglePlay (apply ETogglePlay s) in
  (off <= duration_at i s ->
     isPlaying s' = true /\ activeIdx s' = i /\ currentStep s' = i /\
     now s' - startTime s' = off /\ sourceRef s' = Some (nextNode s) /\
     sounding s' = [(nextNode s, i)]) /\
  (duration_at i s < off ->
     ((S i < length (buffers s))%nat ->
        isPlaying s' = true /\ activeIdx s' = S i /\ currentStep s' = S i /\
        startTime s' = now s') /\
     (length (buffers s) = S i ->
        isPlaying s' = false /\ activeIdx s' = 0%nat /\ currentStep s' = 0%nat)).
Proof.
  cbv zeta. set (s := run es init). intros Hp.
  pose proof (Voice_reachable es) as HV. pose proof (Inv_reachable es) as HI. fold s in HV, HI.
  destruct (live_shape s HI HV) as [[Hr _]|[id [Hr Hs]]];
    [exfalso; destruct HV as [_ [_ [_ [VD _]]]]; exact (VD Hp Hr)|].
  destruct HV as [_ [_ [_ [_ [VE _]]]]]. specialize (VE id Hr).
  pose proof (node_ends_live id s Hs) as Hs1.
  destruct (node_ends_fields id s) as (Hn & Hst & Ha & Hb & _ & _ & _ & _).
  destruct (node_ends_keeps id s) as [Hnn _].
  assert (Hd : duration_at (activeIdx (node_ends id s)) (node_ends id s) = duration_at (activeIdx s) s)
    by (unfold duration_at; rewrite Ha, Hb; reflexivity).
  assert (E1 : apply ETogglePlay s = pauseAudio s)
    by (simpl; unfold handleTogglePlay; rewrite Hp; reflexivity).
  assert (EP : pauseAudio s =
    if duration_at (activeIdx s) s <? now s - startTime s
    then set_isPlaying false (set_sourceRef None
           (set_activeIdx (S (activeIdx s)) (set_pauseOffset 0 (node_ends id s))))
    else set_isPlaying false (set_sourceRef None
           (set_pauseOffset (now s - startTime s) (node_ends id s)))).
  { unfold pauseAudio. rewrite Hr. cbv zeta. rewrite Hd, Hn, Hst, Ha.
    destruct (_ <? _); reflexivity. }
  rewrite E1, EP. set (s1 := node_ends id s) in *. clearbody s1.
  split; intros Hoff.
  - replace (duration_at (activeIdx s) s <? now s - startTime s) with false
      by (symmetry; apply Z.ltb_ge; exact Hoff).
    rewrite toggle_paused by reflexivity.
    set (t := set_isPlaying false (set_sourceRef None (set_pauseOffset (now s - startTime s) s1))).
    destruct (playSegment_in_range (activeIdx t) (pauseOffset t) t) as
        (R & S & Q & A & C & P & St & N & B & O);
      [unfold t; simpl; rewrite Ha, Hb; exact VE|].
    unfold t in *; simpl in *. rewrite Ha, Hnn, Hs1 in *.
    repeat split; auto. rewrite St, N, Hn. lia.
  - replace (duration_at (activeIdx s) s <? now s - startTime s) with true
      by (symmetry; apply Z.ltb_lt; exact Hoff).
    rewrite toggle_paused by reflexivity.
    set (t := set_isPlaying false (set_sourceRef None (set_activeIdx (S (activeIdx s)) (set_pauseOffset 0 s1)))).
    split; intros Hlen.
    + destruct (playSegment_in_range (activeIdx t) (pauseOffset t) t) as
          (R & S & Q & A & C & P & St & N & B & O);
        [unfold t; simpl; rewrite Hb; exact Hlen|].
      unfold t in *; simpl in *.
      repeat split; auto. rewrite St, N. lia.
    + rewrite playSegment_out_of_range; [simpl; repeat split|].
      unfold t; simpl. rewrite Hb, Hlen. lia.
Qed.

Lemma pause_resume_roundtrip_witness :
  let s := run [ESubmit; EContent (Ok doc_one_step); EAudio [payload_two_samples; None]; ETick 1] init in
  isPlaying s = true /\
  (now s - startTime s <= duration_at (activeIdx s) s /\
   let s' := apply ETogglePlay (apply ETogglePlay s) in
   isPlaying s' = true /\ activeIdx s' = activeIdx s /\ now s' - startTime s' = now s - startTime s).
Proof.
  cbv zeta. split; [vm_compute; reflexivity|].
  destruct (pause_resume_roundtrip
              [ESubmit; EContent (Ok doc_one_step); EAudio [payload_two_samples; None]; ETick 1])
    as [H _]; [vm_compute; reflexivity|].
  split; [vm_compute; discriminate|].
  destruct H as (P & A & _ & T & _); [vm_compute; discriminate|].
  split; [exact P | split; [exact A | exact T]].
Defined.

(** X8.  [handleReplay] in a reachable state with buffers always restarts
    from segment 0 at its start, whatever segment was selected: a single
    new node sounds, for segment 0, and the previously live node is
    stopped.  Without buffers it leaves nothing playing. *)
Theorem replay_restarts_from_zero (es : list Event) :
  let s := run es init in
  let s' := apply EReplay s in
  (buffers s <> [] ->
     sourceRef s' = Some (nextNode s) /\ sounding s' = [(nextNode s, 0%nat)] /\
     activeIdx s' = 0%nat /\ currentStep s' = 0%nat /\ isPlaying s' = true /\
     startTime s' = now s) /\
  (buffers s = [] -> isPlaying s' = false /\ sounding s' = []).
Proof.
  cbv zeta. set (s := run es init).
  pose proof (Voice_reachable es) as HV. pose proof (Inv_reachable es) as HI. fold s in HV, HI.
  destruct (Voice_stopAudio s HI HV) as [_ Hs1].
  destruct (stopAudio_keeps s) as (Hn & Hnow & Hb & Ha & Ho & _).
  simpl. unfold handleReplay, playAudio. rewrite Ha, Ho. split; intros Hbuf.
  - destruct (playSegment_in_range 0 0 (stopAudio s)) as
        (R & S & Q & A & C & P & St & N & B & O);
      [rewrite Hb; destruct (buffers s); [congruence | simpl; lia]|].
    rewrite Hn, Hs1 in *. repeat split; auto. rewrite St, Hnow. lia.
  - rewrite playSegment_out_of_range by (rewrite Hb, Hbuf; simpl; lia).
    simpl. split; [reflexivity | exact Hs1].
Qed.

(** X9.  In every reachable state, [stopAudio] (run by a new submission,
    [handleReplay], the export and the unmount cleanup) and [pauseAudio]
    both leave no interactive node sounding, no live node and [isPlaying]
    false. *)
Theorem stop_and_pause_silence (es : list Event) :
  let s := run es init in
  (sounding (stopAudio s) = [] /\ sourceRef (stopAudio s) = None /\ isPlaying (stopAudio s) = false) /\
  (sounding (pauseAudio s) = [] /\ sourceRef (pauseAudio s) = None /\ isPlaying (pauseAudio s) = false).
Proof.
  cbv zeta. set (s := run es init).
  pose proof (Voice_reachable es) as HV. pose proof (Inv_reachable es) as HI. fold s in HV, HI.
  split.
  - destruct (Voice_stopAudio s HI HV) as [_ Hs1]. destruct (stopAudio_off s) as [Hr Hp]. auto.
  - destruct (Voice_pauseAudio s HI HV) as [_ Hs1]. split; [exact Hs1|].
    unfold pauseAudio. destruct (sourceRef s) as [id|] eqn:Er.
    + destruct (_ <? _); split; reflexivity.
    + split; [exact Er|]. destruct (isPlaying s) eqn:Ep; [|reflexivity].
      exfalso. destruct HV as [_ [_ [_ [VD _]]]]. exact (VD Ep Er).
Qed.

Lemma playSegment_keeps (index : nat) (offset : Z) (s : App) :
  loading (playSegment index offset s) = loading s /\ error (playSegment index offset s) = error s /\
  tutorialData (playSegment index offset s) = tutorialData s.
Proof. unfold playSegment. destruct (Nat.leb _ _); repeat split. Qed.

Lemma decode_segments_all_null (n : nat) :
  decode_segments (repeat None n) = Ok (repeat silence n).
Proof.
  unfold decode_segments. induction n as [|n IH]; [reflexivity|].
  simpl. rewrite IH. reflexivity.
Qed.

(** X10.  When every narration call fails, a submission still succeeds:
    each of the [1 + steps] segments gets two seconds of silence, the
    state is [READY] with the document shown and no error, and playback
    starts at segment 0 from its start. *)
Theorem failed_synthesis_plays_silence (s : App) (data : TutorialData) :
  submit_enabled s = true ->
  let s' := run [ESubmit; EContent (Ok data);
                 EAudio (generateAudioSegments (fun _ => None) data)] s in
  buffers s' = repeat silence (S (length (steps data))) /\ loading s' = READY /\
  error s' = None /\ tutorialData s' = Some data /\ isPlaying s' = true /\
  activeIdx s' = 0%nat /\ currentStep s' = 0%nat /\ startTime s' = now s' /\
  sourceRef s' <> None.
Proof.
  intros Hen. cbv zeta. simpl. rewrite Hen. simpl.
  assert (Hp : generateAudioSegments (fun _ => None) data = repeat None (S (length (steps data)))).
  { unfold generateAudioSegments, segment_texts. simpl. f_equal.
    induction (steps data) as [|st l IH]; simpl; [reflexivity | rewrite IH; reflexivity]. }
  unfold handleSubmit_audio. rewrite Hp, decode_segments_all_null.
  unfold playAudio.
  lazymatch goal with
  | |- context [playSegment ?i ?o ?t] =>
      destruct (playSegment_keeps i o t) as (K1 & K2 & K3);
      destruct (playSegment_in_range i o t)
        as (R & S & Q & A & C & P & St & N & B & O); [simpl; lia|]
  end.
  rewrite K1, K2, K3, B, St, N, R, A, C, P. simpl.
  repeat split; [lia | discriminate].
Qed.

Lemma failed_synthesis_plays_silence_witness :
  submit_enabled init = true /\
  buffers (run [ESubmit; EContent (Ok doc_one_step);
                EAudio (generateAudioSegments (fun _ => None) doc_one_step)] init) = [silence; silence].
Proof.
  split; [reflexivity|].
  apply (failed_synthesis_plays_silence init doc_one_step). reflexivity.
Defined.

(** X11.  When the content generation fails, the submission ends in
    [ERROR] with the error recorded, having cleared what the previous
    document left: no document, no buffers, nothing playing, segment 0
    selected. *)
Theorem content_failure_resets (s : App) (e : exn) :
  submit_enabled s = true ->
  let s' := run [ESubmit; EContent (Throw e)] s in
  loading s' = ERROR /\ error s' = Some e /\ tutorialData s' = None /\ buffers s' = [] /\
  isPlaying s' = false /\ sourceRef s' = None /\ activeIdx s' = 0%nat /\
  currentStep s' = 0%nat /\ pauseOffset s' = 0.
Proof.
  intros Hen. cbv zeta. simpl. rewrite Hen. simpl.
  destruct (stopAudio_off s) as [Hr Hp]. repeat split; assumption.
Qed.

Lemma content_failure_resets_witness :
  let s := run [ESubmit; EContent (Ok doc_one_step); EAudio [payload_two_samples; None]] init in
  submit_enabled s = true /\
  loading (run [ESubmit; EContent (Throw (GenError "No content generated"))] s) = ERROR /\
  buffers (run [ESubmit; EContent (Throw (GenError "No content generated"))] s) = [].
Proof.
  cbv zeta. split; [vm_compute; reflexivity|].
  destruct (content_failure_resets
              (run [ESubmit; EContent (Ok doc_one_step); EAudio [payload_two_samples; None]] init)
              (GenError "No content generated")) as (L & _ & _ & B & _);
    [vm_compute; reflexivity|].
  split; [exact L | exact B].
Defined.

(* ------------------------------------------------------------------ *)
(** ** A complete export *)

Section ExportRun.

Variables (n : nat) (c : list nat) (m : string).

Lemma run_app (l1 l2 : list Event) (s : App) : run (l1 ++ l2) s = run l2 (run l1 s).
Proof. revert s; induction l1 as [|e l1 IH]; intros s; simpl; [reflexivity | apply IH]. Qed.

Lemma export_step_more (t : App) (i : nat) :
  job t = Some (mkJob i n Recording c m InLoop) -> (S i < n)%nat ->
  export_segment true t = set_job (Some (mkJob (S i) n Recording c m InLoop)) (set_currentStep i t).
Proof.
  intros Hj Hl. unfold export_segment. rewrite Hj. simpl.
  replace (Nat.ltb (S i) n) with true by (symmetry; apply Nat.ltb_lt; exact Hl). reflexivity.
Qed.

Lemma export_step_last (t : App) (i : nat) :
  job t = Some (mkJob i n Recording c m InLoop) -> S i = n ->
  export_segment true t = set_job (Some (mkJob n n Inactive c m Stopping)) (set_currentStep i t).
Proof.
  intros Hj Hl. unfold export_segment. rewrite Hj. simpl.
  replace (Nat.ltb (S i) n) with false by (symmetry; apply Nat.ltb_ge; lia).
  rewrite Hl. reflexivity.
Qed.

(** The first [S k] turns of the loop, all snapshots succeeding, before
    the last segment. *)
Lemma export_loop_prefix (k : nat) : forall (i : nat) (t : App),
  job t = Some (mkJob i n Recording c m InLoop) -> (i + S k < n)%nat ->
  run (repeat (EExportSegment true) (S k)) t =
  set_job (Some (mkJob (i + S k) n Recording c m InLoop)) (set_currentStep (i + k) t).
Proof.
  induction k as [|k IH]; intros i t Hj Hl.
  - change (run [] (export_segment true t) = set_job (Some (mkJob (i + 1) n Recording c m InLoop))
              (set_currentStep (i + 0) t)).
    rewrite export_step_more with (i := i) by (assumption || lia).
    rewrite Nat.add_0_r, Nat.add_1_r. reflexivity.
  - change (run (repeat (EExportSegment true) (S k)) (export_segment true t) =
            set_job (Some (mkJob (i + S (S k)) n Recording c m InLoop)) (set_currentStep (i + S k) t)).
    rewrite export_step_more with (i := i) by (assumption || lia).
    rewrite (IH (S i)); [| reflexivity | lia].
    replace (S i + S k)%nat with (i + S (S k))%nat by lia.
    replace (S i + k)%nat with (i + S k)%nat by lia. reflexivity.
Qed.

(** The remaining turns up to the last segment, after which the recorder
    is stopped. *)
Lemma export_loop_full (k : nat) : forall (i : nat) (t : App),
  job t = Some (mkJob i n Recording c m InLoop) -> (i + S k = n)%nat ->
  run (repeat (EExportSegment true) (S k)) t =
  set_job (Some (mkJob n n Inactive c m Stopping)) (set_currentStep (i + k) t).
Proof.
  induction k as [|k IH]; intros i t Hj Hl.
  - change (run [] (export_segment true t) = set_job (Some (mkJob n n Inactive c m Stopping))
              (set_currentStep (i + 0) t)).
    rewrite export_step_last with (i := i) by (assumption || lia).
    rewrite Nat.add_0_r. reflexivity.
  - change (run (repeat (EExportSegment true) (S k)) (export_segment true t) =
            set_job (Some (mkJob n n Inactive c m Stopping)) (set_currentStep (i + S k) t)).
    rewrite export_step_more with (i := i) by (assumption || lia).
    rewrite (IH (S i)); [| reflexivity | lia].
    replace (S i + k)%nat with (i + S k)%nat by lia. reflexivity.
Qed.

Lemma set_job_same (t : App) (j : option ExportJob) : job t = j -> set_job j t = t.
Proof. destruct t; simpl; intros ->; reflexivity. Qed.

Lemma export_data_run (sizes : list nat) : forall (t : App) (a b : nat) (r : RecorderState) (c0 : list nat),
  job t = Some (mkJob a b r c0 m Stopping) ->
  run (map EExportData sizes) t =
  set_job (Some (mkJob a b r (c0 ++ filter (fun z => Nat.ltb 0 z) sizes) m Stopping)) t.
Proof.
  induction sizes as [|z sizes IH]; intros t a b r c0 Hj.
  - simpl. rewrite app_nil_r. symmetry. apply set_job_same. exact Hj.
  - change (run (map EExportData sizes) (export_data z t) =
            set_job (Some (mkJob a b r (c0 ++ filter (fun z => Nat.ltb 0 z) (z :: sizes)) m Stopping)) t).
    unfold export_data at 1. rewrite Hj. simpl.
    destruct (Nat.ltb 0 z).
    + rewrite (IH _ a b r (c0 ++ [z])) by reflexivity. rewrite <- app_assoc. reflexivity.
    + apply IH. exact Hj.
Qed.

Lemma export_stop_run (t : App) (a b : nat) (r : RecorderState) (c0 : list nat) :
  job t = Some (mkJob a b r c0 m Stopping) ->
  export_onstop t =
  set_job None (set_activeIdx 0 (set_currentStep 0 (set_isExporting false
    (set_downloads ((m, c0) :: downloads t) t)))).
Proof. intros Hj. unfold export_onstop. rewrite Hj. reflexivity. Qed.

End ExportRun.

Lemma export_start (s : App) (data : TutorialData) (sup : string -> bool) :
  isExporting s = false -> tutorialData s = Some data ->
  apply (EExport true sup) s =
  set_job (Some (mkJob 0 (S (length (steps data))) Recording [] (probe_mime sup) InLoop))
          (set_isExporting true (stopAudio s)).
Proof.
  intros Hx Hd. simpl. unfold handleExportVideo. rewrite Hx. simpl.
  destruct (stopAudio_keeps s) as (_ & _ & _ & _ & _ & _). rewrite Hd. reflexivity.
Qed.

Lemma stopAudio_data (s : App) :
  tutorialData (stopAudio s) = tutorialData s /\ downloads (stopAudio s) = downloads s.
Proof.
  unfold stopAudio. destruct (sourceRef s) as [id|]; simpl; [|split; reflexivity].
  unfold node_ends. destruct (take_node _ _) as [[? ?]|]; split; reflexivity.
Qed.

(** X12.  A run of the export in which every snapshot succeeds visits the
    segments in order: after the turn for segment [k] the selection is [k],
    and the highlighted code is none for the overview (segment 0) and the
    line code of step [k] for [k >= 1]; the export flag stays set and no
    interactive playback takes place. *)
Theorem export_visits_segments_in_order (s : App) (data : TutorialData) (sup : string -> bool) :
  isExporting s = false -> tutorialData s = Some data ->
  let s1 := apply (EExport true sup) s in
  forall k, (k <= length (steps data))%nat ->
    let sk := run (repeat (EExportSegment true) (S k)) s1 in
    currentStep sk = k /\ isExporting sk = true /\ sourceRef sk = None /\ isPlaying sk = false /\
    currentHighlight (tutorialData sk) (currentStep sk) =
      Some (match k with
            | O => None
            | S j => option_map lineCode (nth_error (steps data) j)
            end).
Proof.
  intros Hx Hd. cbv zeta. intros k Hk. rewrite (export_start s data sup Hx Hd).
  set (N := S (length (steps data))).
  set (t := set_job (Some (mkJob 0 N Recording [] (probe_mime sup) InLoop)) (set_isExporting true (stopAudio s))).
  assert (E : exists j, run (repeat (EExportSegment true) (S k)) t = set_job j (set_currentStep k t)).
  { destruct (Nat.lt_ge_cases k (length (steps data))) as [Hlt|Hge].
    - rewrite (export_loop_prefix N [] (probe_mime sup) k 0 t); [| reflexivity | unfold N; lia].
      eexists; reflexivity.
    - rewrite (export_loop_full N [] (probe_mime sup) k 0 t); [| reflexivity | unfold N; lia].
      eexists; reflexivity. }
  destruct E as [j ->]. unfold t.
  cbn [currentStep isExporting sourceRef isPlaying tutorialData set_job set_currentStep set_isExporting].
  destruct (stopAudio_off s) as [Hr Hp]. destruct (stopAudio_data s) as [Hd' _].
  rewrite Hr, Hp, Hd', Hd. repeat split.
  unfold currentHighlight. destruct k as [|j']; [reflexivity|].
  replace (Nat.ltb 0 (S j') && Nat.leb (S j') (length (steps data))) with true
    by (symmetry; apply andb_true_iff; split; [reflexivity | apply Nat.leb_le; exact Hk]).
  replace (S j' - 1)%nat with j' by lia.
  destruct (nth_error (steps data) j') eqn:En; [reflexivity|].
  apply nth_error_None in En. lia.
Qed.

Lemma export_visits_segments_in_order_witness :
  let s := run [ESubmit; EContent (Ok doc_one_step); EAudio [payload_two_samples; None]] init in
  isExporting s = false /\ tutorialData s = Some doc_one_step /\
  currentHighlight (tutorialData (run [EExportSegment true; EExportSegment true]
                                     (apply (EExport true (fun _ => false)) s)))
                   1 = Some (option_map lineCode (nth_error (steps doc_one_step) 0)).
Proof.
  cbv zeta. split; [vm_compute; reflexivity|]. split; [vm_compute; reflexivity|].
  destruct (export_visits_segments_in_order
              (run [ESubmit; EContent (Ok doc_one_step); EAudio [payload_two_samples; None]] init)
              doc_one_step (fun _ => false)) with (k := 1%nat) as [Hc [_ [_ [_ Hh]]]];
    [vm_compute; reflexivity | vm_compute; reflexivity | simpl; lia |].
  rewrite Hc in Hh. exact Hh.
Defined.

(** X13.  A complete export (every snapshot succeeding, the recorder's
    data delivered, then its [onstop]) hands exactly one artifact to the
    browser: the probed container type with the non-empty chunks in the
    order they arrived.  It leaves [isExporting] false, no job, segment 0
    selected, the document in place and no interactive playback. *)
Theorem export_delivers_one_artifact (s : App) (data : TutorialData) (sup : string -> bool)
    (sizes : list nat) :
  isExporting s = false -> tutorialData s = Some data ->
  let sF := run (EExport true sup :: repeat (EExportSegment true) (S (length (steps data))) ++
                 map EExportData sizes ++ [EExportStop]) s in
  downloads sF = (probe_mime sup, filter (fun z => Nat.ltb 0 z) sizes) :: downloads s /\
  isExporting sF = false /\ job sF = None /\ currentStep sF = 0%nat /\ activeIdx sF = 0%nat /\
  sourceRef sF = None /\ isPlaying sF = false /\ tutorialData sF = Some data.
Proof.
  intros Hx Hd. cbv zeta. change (run (EExport true sup :: ?l) s) with (run l (apply (EExport true sup) s)).
  rewrite (export_start s data sup Hx Hd), !run_app.
  set (t := set_job (Some (mkJob 0 (S (length (steps data))) Recording [] (probe_mime sup) InLoop))
              (set_isExporting true (stopAudio s))).
  rewrite (export_loop_full (S (length (steps data))) [] (probe_mime sup) (length (steps data)) 0 t);
    [| reflexivity | lia].
  set (N := S (length (steps data))) in *.
  rewrite (export_data_run (probe_mime sup) sizes _ N N Inactive []) by reflexivity.
  change (run [EExportStop] ?x) with (export_onstop x).
  rewrite export_stop_run with (m := probe_mime sup) (a := N) (b := N) (r := Inactive)
           (c0 := filter (fun z => Nat.ltb 0 z) sizes) by reflexivity.
  unfold t.
  cbn [downloads currentStep activeIdx job isExporting sourceRef isPlaying tutorialData set_job
       set_currentStep set_isExporting set_activeIdx set_downloads].
  destruct (stopAudio_off s) as [Hr Hp]. destruct (stopAudio_data s) as [Hd' Hdl].
  rewrite Hr, Hp, Hd', Hdl, Hd. repeat split.
Qed.

Lemma export_delivers_one_artifact_witness :
  let s := run [ESubmit; EContent (Ok doc_one_step); EAudio [payload_two_samples; None]] init in
  isExporting s = false /\ tutorialData s = Some doc_one_step /\
  downloads (run (EExport true (fun _ => false) :: repeat (EExportSegment true) 2 ++
                  map EExportData [0%nat; 7%nat; 3%nat] ++ [EExportStop]) s) =
    [("video/webm"%string, [7%nat; 3%nat])].
Proof.
  cbv zeta. split; [vm_compute; reflexivity|]. split; [vm_compute; reflexivity|].
  destruct (export_delivers_one_artifact
              (run [ESubmit; EContent (Ok doc_one_step); EAudio [payload_two_samples; None]] init)
              doc_one_step (fun _ => false) [0%nat; 7%nat; 3%nat]) as [H _];
    [vm_compute; reflexivity | vm_compute; reflexivity |].
  exact H.
Defined.

Lemma single_narration_voice_witness :
  let s := run [ESubmit; EContent (Ok doc_one_step); EAudio [payload_two_samples; None]] init in
  isPlaying s = true /\ sourceRef s <> None /\ (length (sounding s) <= 1)%nat.
Proof.
  cbv zeta.
  destruct (single_narration_voice [ESubmit; EContent (Ok doc_one_step); EAudio [payload_two_samples; None]])
    as [Hl [_ [_ Hp]]].
  assert (E : isPlaying (run [ESubmit; EContent (Ok doc_one_step); EAudio [payload_two_samples; None]] init) = true)
    by (vm_compute; reflexivity).
  split; [exact E | split; [exact (Hp E) | exact Hl]].
Defined.

Lemma replay_restarts_from_zero_witness :
  let s := run [ESubmit; EContent (Ok doc_one_step); EAudio [payload_two_samples; None];
                ENodeEnds 0; EDispatch] init in
  buffers s <> [] /\ activeIdx s = 1%nat /\ activeIdx (apply EReplay s) = 0%nat /\
  sounding (apply EReplay s) = [(nextNode s, 0%nat)].
Proof.
  cbv zeta. split; [vm_compute; discriminate|]. split; [vm_compute; reflexivity|].
  destruct (replay_restarts_from_zero [ESubmit; EContent (Ok doc_one_step); EAudio [payload_two_samples; None];
                                       ENodeEnds 0; EDispatch]) as [H _].
  destruct H as (_ & S & A & _); [vm_compute; discriminate|].
  split; [exact A | exact S].
Defined.

(* ------------------------------------------------------------------ *)
(** ** The highlighted step and the deep-dive title *)

(** X14.  The guard of [currentHighlight] keeps the lookup in range: it
    never reads [.lineCode] of a missing step.  For [1 <= i <= steps] it is
    the line code of step [i - 1]; without a document, for the overview
    ([i = 0]) and past the last step it is [null]. *)
Theorem currentHighlight_safe (data : option TutorialData) (i : nat) :
  currentHighlight data i <> None /\
  (forall d, data = Some d -> (1 <= i <= length (steps d))%nat ->
     exists st, nth_error (steps d) (i - 1) = Some st /\
                currentHighlight data i = Some (Some (lineCode st))) /\
  (data = None \/ i = 0%nat \/ (exists d, data = Some d /\ (length (steps d) < i)%nat) ->
     currentHighlight data i = Some None).
Proof.
  assert (Hin : forall d, (1 <= i <= length (steps d))%nat ->
            exists st, nth_error (steps d) (i - 1) = Some st /\
                       currentHighlight (Some d) i = Some (Some (lineCode st))).
  { intros d Hi. unfold currentHighlight.
    replace (Nat.ltb 0 i && Nat.leb i (length (steps d))) with true
      by (symmetry; apply andb_true_iff; split; [apply Nat.ltb_lt | apply Nat.leb_le]; lia).
    destruct (nth_error (steps d) (i - 1)) as [st|] eqn:E.
    - exists st. split; reflexivity.
    - apply nth_error_None in E. lia. }
  split; [|split].
  - destruct data as [d|]; [|discriminate].
    destruct (Nat.le_gt_cases 1 i) as [H1|H1]; [destruct (Nat.le_gt_cases i (length (steps d))) as [H2|H2]|].
    + destruct (Hin d (conj H1 H2)) as [st [_ ->]]. discriminate.
    + unfold currentHighlight.
      replace (Nat.leb i (length (steps d))) with false by (symmetry; apply Nat.leb_gt; exact H2).
      rewrite andb_false_r. discriminate.
    + unfold currentHighlight. replace (Nat.ltb 0 i) with false by (symmetry; apply Nat.ltb_ge; lia).
      discriminate.
  - intros d -> Hi. apply Hin. exact Hi.
  - intros [->|[->|[d [-> Hgt]]]]; [reflexivity | destruct data; reflexivity|].
    unfold currentHighlight.
    replace (Nat.leb i (length (steps d))) with false by (symmetry; apply Nat.leb_gt; exact Hgt).
    rewrite andb_false_r. reflexivity.
Qed.

Lemma currentHighlight_safe_witness :
  currentHighlight (Some doc_one_step) 1 = Some (Some (lineCode (mkStep "margin: auto;" ""))) /\
  currentHighlight (Some doc_one_step) 2 = Some None.
Proof.
  destruct (currentHighlight_safe (Some doc_one_step) 1) as [_ [H1 _]].
  destruct (currentHighlight_safe (Some doc_one_step) 2) as [_ [_ H2]].
  split.
  - destruct (H1 doc_one_step eq_refl ltac:(simpl; lia)) as [st [E ->]].
    vm_compute in E. injection E as <-. reflexivity.
  - apply H2. right; right. exists doc_one_step. split; [reflexivity | simpl; lia].
Defined.

(** X15.  The deep-dive title is at most 33 code units long and starts
    with the first 30 code units of the snippet; a snippet of at most 30
    code units is its own title, a longer one is cut and marked with
    ["..."]. *)
Theorem deepDiveTitle_bounded (snippet : jsstr) :
  (length (deepDiveTitle snippet) <= 33)%nat /\
  firstn 30 (deepDiveTitle snippet) = firstn 30 snippet /\
  ((length snippet <= 30)%nat -> deepDiveTitle snippet = snippet) /\
  ((30 < length snippet)%nat -> skipn 30 (deepDiveTitle snippet) = of_string "...").
Proof.
  unfold deepDiveTitle. destruct (Nat.ltb_spec 30 (length snippet)) as [H|H].
  - assert (Hf : length (firstn 30 snippet) = 30%nat) by (rewrite length_firstn; lia).
    split; [rewrite length_app, Hf; simpl; lia|].
    split; [rewrite firstn_app, Hf, Nat.sub_diag, firstn_all2 by lia; simpl; apply app_nil_r|].
    split; [lia|]. intros _. rewrite skipn_app, Hf, Nat.sub_diag, skipn_all2 by lia. reflexivity.
  - split; [lia|]. split; [reflexivity|]. split; [reflexivity | lia].
Qed.

Lemma deepDiveTitle_bounded_witness :
  deepDiveTitle (of_string "x = 1") = of_string "x = 1" /\
  skipn 30 (deepDiveTitle (of_string "const result = items.map(item => item * 2);")) = of_string "...".
Proof.
  destruct (deepDiveTitle_bounded (of_string "x = 1")) as [_ [_ [H1 _]]].
  destruct (deepDiveTitle_bounded (of_string "const result = items.map(item => item * 2);"))
    as [_ [_ [_ H2]]].
  split; [apply H1 | apply H2]; vm_compute; lia.
Defined.

(* ------------------------------------------------------------------ *)
(** ** CodeBlock rendering *)

Fixpoint join_lines (sep : jsstr) (l : list jsstr) : jsstr :=
  match l with
  | [] => []
  | [x] => x
  | x :: r => x ++ sep ++ join_lines sep r
  end.

Definition piece_text (p : piece) : jsstr :=
  match p with Plain t => t | Mark t => t end.

(** The text a rendered row shows. *)
Definition row_text (pieces : list piece) : jsstr := flat_map piece_text pieces.

(** An empty line is shown as a lone newline; a line of the code never is. *)
Definition undo_placeholder (t : jsstr) : jsstr :=
  match t with [c] => if c =? 10 then [] else t | _ => t end.

Section Split.

Variable sep : jsstr.
Hypothesis sep_nonempty : sep <> [].

Lemma starts_with_app (s : jsstr) :
  starts_with sep s = true -> s = sep ++ skipn (length sep) s.
Proof.
  clear sep_nonempty. revert s. induction sep as [|a p IH]; intros s H; [reflexivity|].
  destruct s as [|b t]; [discriminate|].
  cbn [starts_with] in H. apply andb_true_iff in H as [Hab Hp].
  apply Z.eqb_eq in Hab. subst b. cbn. f_equal. apply IH. exact Hp.
Qed.

Lemma split_go_nonempty (fuel : nat) (s acc : jsstr) : split_go fuel sep s acc <> [].
Proof.
  revert s acc. induction fuel as [|f IH]; intros s acc; [discriminate|].
  destruct s as [|c t]; [discriminate|]. cbn [split_go].
  destruct (starts_with sep (c :: t)); [discriminate | apply IH].
Qed.

Lemma join_lines_cons (x : jsstr) (l : list jsstr) :
  l <> [] -> join_lines sep (x :: l) = x ++ sep ++ join_lines sep l.
Proof. destruct l; [contradiction | reflexivity]. Qed.

Lemma split_go_join (fuel : nat) (s acc : jsstr) :
  (length s < fuel)%nat -> join_lines sep (split_go fuel sep s acc) = rev acc ++ s.
Proof.
  revert s acc. induction fuel as [|f IH]; intros s acc Hf; [lia|].
  destruct s as [|c t]; [cbn; symmetry; apply app_nil_r|]. cbn [split_go].
  destruct (starts_with sep (c :: t)) eqn:Hs.
  - rewrite join_lines_cons by apply split_go_nonempty.
    rewrite IH.
    + cbn [rev app]. f_equal. symmetry. apply starts_with_app. exact Hs.
    + pose proof (starts_with_app _ Hs) as E. apply (f_equal (@length Z)) in E.
      rewrite length_app in E. destruct sep; [contradiction|]. cbn [length] in *. lia.
  - rewrite IH by (cbn [length] in Hf; lia). cbn [rev]. rewrite <- app_assoc. reflexivity.
Qed.

Lemma str_split_join (s : jsstr) : join_lines sep (str_split sep s) = s.
Proof. unfold str_split. rewrite split_go_join by lia. reflexivity. Qed.

Lemma str_includes_nil (sub : jsstr) : sub <> [] -> str_includes [] sub = false.
Proof. destruct sub; [contradiction | reflexivity]. Qed.

Lemma split_go_single (fuel : nat) (s acc : jsstr) :
  (length s < fuel)%nat -> length (split_go fuel sep s acc) = 1%nat -> str_includes s sep = false.
Proof.
  revert s acc. induction fuel as [|f IH]; intros s acc Hf Hl; [lia|].
  destruct s as [|c t]; [apply str_includes_nil, sep_nonempty|]. cbn [split_go] in Hl.
  cbn [str_includes]. destruct (starts_with sep (c :: t)).
  - cbn [length] in Hl. pose proof (split_go_nonempty f (skipn (length sep) (c :: t)) []) as N.
    destruct (split_go _ _ _ _); [contradiction | discriminate].
  - cbn [orb]. apply (IH t (c :: acc)); [cbn [length] in Hf; lia | exact Hl].
Qed.

Lemma str_split_many (s : jsstr) :
  str_includes s sep = true -> (2 <= length (str_split sep s))%nat.
Proof.
  intros H. unfold str_split.
  destruct (split_go (S (length s)) sep s []) as [|x [|y r]] eqn:E.
  - exfalso. exact (split_go_nonempty _ _ _ E).
  - pose proof (split_go_single (S (length s)) s [] ltac:(lia) ltac:(rewrite E; reflexivity)). congruence.
  - cbn. lia.
Qed.

End Split.

Lemma split_go_newline_free (fuel : nat) (s acc : jsstr) :
  (length s < fuel)%nat -> ~ In 10 acc ->
  Forall (fun line => ~ In 10 line) (split_go fuel [10] s acc).
Proof.
  revert s acc. induction fuel as [|f IH]; intros s acc Hf Ha; [lia|].
  destruct s as [|c t]; cbn [split_go].
  - constructor; [rewrite <- in_rev; exact Ha | constructor].
  - cbn [starts_with]. rewrite andb_true_r. destruct (Z.eqb_spec 10 c) as [<-|Hc].
    + constructor; [rewrite <- in_rev; exact Ha|]. apply IH; [cbn in *; lia | intros []].
    + apply IH; [cbn [length] in Hf; lia|]. intros [E|E]; [congruence | exact (Ha E)].
Qed.

Lemma split_go_newline_count (fuel : nat) (s acc : jsstr) :
  (length s < fuel)%nat -> length (split_go fuel [10] s acc) = S (count_occ Z.eq_dec s 10).
Proof.
  revert s acc. induction fuel as [|f IH]; intros s acc Hf; [lia|].
  destruct s as [|c t]; [reflexivity|]. cbn [split_go count_occ].
  cbn [starts_with]. rewrite andb_true_r.
  destruct (Z.eqb_spec 10 c) as [<-|Hc].
  - destruct (Z.eq_dec 10 10) as [_|]; [|congruence].
    cbn [length skipn]. rewrite IH by (cbn in Hf; lia). reflexivity.
  - destruct (Z.eq_dec c 10) as [|_]; [congruence|]. apply IH. cbn [length] in Hf. lia.
Qed.

(** The pieces of a highlighted line, read back, are the parts joined
    with the highlighted text. *)
Lemma marked_pieces_text (h : jsstr) (L : nat) (parts : list jsstr) (k : nat) :
  parts <> [] -> (k + length parts = L)%nat ->
  row_text (flat_map (fun '(i, part) => Plain part :: (if Nat.ltb i (L - 1) then [Mark h] else []))
                     (combine (seq k (length parts)) parts))
  = join_lines h parts.
Proof.
  revert k. induction parts as [|p r IH]; intros k Hne HL; [contradiction|].
  destruct r as [|q r].
  - cbn [length seq combine flat_map].
    replace (Nat.ltb k (L - 1)) with false by (symmetry; apply Nat.ltb_ge; cbn in HL; lia).
    unfold row_text. cbn. rewrite !app_nil_r. reflexivity.
  - cbn [length seq combine flat_map]. 
    replace (Nat.ltb k (L - 1)) with true by (symmetry; apply Nat.ltb_lt; cbn in HL; lia).
    unfold row_text in *. rewrite flat_map_app. cbn [flat_map piece_text].
    specialize (IH (S k) ltac:(discriminate) ltac:(cbn in *; lia)).
    cbn [length seq combine flat_map] in IH. rewrite IH.
    rewrite app_nil_r. change (join_lines h (p :: q :: r)) with (p ++ h ++ join_lines h (q :: r)).
    rewrite <- app_assoc. reflexivity.
Qed.

Lemma render_line_text (highlight : option jsstr) (line : jsstr) :
  row_text (render_line highlight line) = content_or_newline line.
Proof.
  unfold render_line. destruct (truthy_highlight highlight) as [h|] eqn:Ht;
    [|cbn; apply app_nil_r].
  assert (Hh : h <> []) by (destruct highlight as [[|c r]|]; cbn in Ht; congruence).
  destruct (str_includes line h) eqn:Hi; [|cbn; apply app_nil_r].
  rewrite marked_pieces_text; [| apply split_go_nonempty | reflexivity].
  rewrite str_split_join by exact Hh.
  destruct line; [rewrite str_includes_nil in Hi by exact Hh; discriminate | reflexivity].
Qed.

Lemma map_combine_seq {A : Type} (l : list A) (k : nat) :
  length (combine (seq k (length l)) l) = length l /\
  map fst (combine (seq k (length l)) l) = seq k (length l) /\
  map snd (combine (seq k (length l)) l) = l.
Proof.
  revert k. induction l as [|x r IH]; intros k; [repeat split|].
  cbn [length seq combine map]. destruct (IH (S k)) as (H1 & H2 & H3).
  split; [cbn; f_equal; exact H1|]. split; f_equal; assumption.
Qed.

Lemma marked_pieces_marks (h : jsstr) (L : nat) (parts : list jsstr) (k : nat) (t : jsstr) :
  In (Mark t) (flat_map (fun '(i, part) => Plain part :: (if Nat.ltb i (L - 1) then [Mark h] else []))
                        (combine (seq k (length parts)) parts)) -> t = h.
Proof.
  intros H. apply in_flat_map in H as [[i part] [_ H]].
  destruct H as [E|H]; [discriminate|]. destruct (Nat.ltb i (L - 1)); [|destruct H].
  destruct H as [E|[]]. congruence.
Qed.

(** X16.  CodeBlock loses nothing: it renders one row per line of the code
    (one more than the number of newlines), numbered [1, 2, ...]; each row
    shows its line, an empty line as a lone newline, whether or not a part
    of it is highlighted; reading the rows back and joining them with
    newlines gives the code. *)
Theorem renderCode_lossless (code : jsstr) (highlight : option jsstr) :
  let rows := renderCode code highlight in
  length rows = S (count_occ Z.eq_dec code 10) /\
  map fst rows = seq 1 (length rows) /\
  map (fun r => row_text (snd r)) rows = map content_or_newline (str_split [10] code) /\
  join_lines [10] (map (fun r => undo_placeholder (row_text (snd r))) rows) = code.
Proof.
  cbv zeta. unfold renderCode.
  set (lines := str_split [10] code).
  assert (Hn : length lines = S (count_occ Z.eq_dec code 10))
    by (apply split_go_newline_count; lia).
  assert (Hnl : Forall (fun line => ~ In 10 line) lines)
    by (apply split_go_newline_free; [lia | intros []]).
  destruct (map_combine_seq lines 0) as (Hlen & Hfst & Hsnd).
  rewrite length_map, Hlen.
  split; [exact Hn|]. rewrite !map_map. split.
  - transitivity (map S (map fst (combine (seq 0 (length lines)) lines))).
    + rewrite map_map. apply map_ext. intros [i x]. reflexivity.
    + rewrite Hfst. apply seq_shift.
  - assert (Hrow : forall g : jsstr -> jsstr,
      map (fun x => g (row_text (snd (let '(idx, line) := x in (S idx, render_line highlight line)))))
          (combine (seq 0 (length lines)) lines)
      = map (fun line => g (content_or_newline line)) lines).
    { intros g. rewrite <- Hsnd at 3. rewrite map_map. apply map_ext. intros [i x].
      cbn [snd]. rewrite render_line_text. reflexivity. }
    split; [apply (Hrow (fun t => t))|]. rewrite Hrow.
    transitivity (join_lines [10] lines); [|apply str_split_join; discriminate].
    f_equal. rewrite <- (map_id lines) at 2. apply map_ext_in. intros line Hin.
    rewrite Forall_forall in Hnl. specialize (Hnl line Hin).
    destruct line as [|c [|d r]]; [reflexivity| |reflexivity].
    cbn. destruct (Z.eqb_spec c 10) as [->|]; [exfalso; apply Hnl; left; reflexivity | reflexivity].
Qed.

(** X17.  The only marked pieces of a row carry the highlighted text, and a
    row gets a mark exactly when the highlight is a non-empty string that
    occurs in its line. *)
Theorem render_line_marks (highlight : option jsstr) (line : jsstr) :
  (forall t, In (Mark t) (render_line highlight line) -> highlight = Some t) /\
  ((exists t, In (Mark t) (render_line highlight line)) <->
   exists h, highlight = Some h /\ h <> [] /\ str_includes line h = true).
Proof.
  unfold render_line.
  assert (Hplain : forall t, ~ In (Mark t) [Plain (content_or_newline line)])
    by (intros t [E|[]]; discriminate).
  destruct (truthy_highlight highlight) as [h|] eqn:Ht.
  2:{ split; [intros t H; exfalso; exact (Hplain t H)|]. split; [intros [t H]; exfalso; exact (Hplain t H)|].
      intros [h [-> [Hh _]]]. destruct h; [contradiction | discriminate]. }
  assert (Hs : highlight = Some h /\ h <> [])
    by (destruct highlight as [[|c r]|]; cbn in Ht; [discriminate | injection Ht as <-; split; [reflexivity|discriminate] | discriminate]).
  destruct Hs as [Hs Hh].
  destruct (str_includes line h) eqn:Hi.
  - split; [intros t H; apply marked_pieces_marks in H; congruence|].
    split; [intros _; exists h; auto|]. intros _. exists h.
    pose proof (str_split_many h Hh line Hi) as H2.
    destruct (str_split h line) as [|p [|q r]] eqn:E; [cbn in H2; lia | cbn in H2; lia|].
    cbn [length seq combine flat_map]. 
    replace (Nat.ltb 0 (S (S (length r)) - 1)) with true by (symmetry; apply Nat.ltb_lt; lia).
    right. left. reflexivity.
  - split; [intros t H; exfalso; exact (Hplain t H)|].
    split; [intros [t H]; exfalso; exact (Hplain t H)|].
    intros [h' [E [_ Hi']]]. rewrite Hs in E. injection E as <-. congruence.
Qed.

Lemma render_line_marks_witness :
  In (Mark (of_string "auto")) (render_line (Some (of_string "auto")) (of_string "margin: auto;")) /\
  ~ In (Mark (of_string "auto")) (render_line (Some (of_string "auto")) (of_string "padding: 0;")).
Proof.
  destruct (render_line_marks (Some (of_string "auto")) (of_string "margin: auto;")) as [_ [_ H1]].
  destruct (render_line_marks (Some (of_string "auto")) (of_string "padding: 0;")) as [_ [H2 _]].
  split.
  - destruct H1 as [t Ht]; [exists (of_string "auto"); split; [reflexivity | split; [discriminate | vm_compute; reflexivity]]|].
    pose proof (proj1 (render_line_marks (Some (of_string "auto")) (of_string "margin: auto;")) t Ht) as E.
    injection E as <-. exact Ht.
  - intros H. destruct (H2 (ex_intro (fun t => In (Mark t) _) _ H)) as [h [E [_ Hi]]].
    injection E as <-. vm_compute in Hi. discriminate.
Defined.
